(** * go-tarantool: stream/transaction codec and the multi-connection pool

    A shallow embedding of
      - [msgpack.go]  : classifiers of a leading msgpack byte,
      - [stream.go]   : Begin/Commit/Rollback bodies and [Stream.Do],
      - package [multi] : [ConnectionMulti], its constructor, the
        maintenance loop, the selection of the current connection,
        [Close] and [Do].

    Integers are [Z] ([byte] values range over 0..255, [time.Duration] is
    a signed 64-bit count of nanoseconds), Go maps are [gmap]s, pointers to
    connections are indices into a heap of connection objects, and a [nil]
    pointer is [None]. *)

From Stdlib Require Import ZArith String List Bool Lia.
From Stdlib Require Import PrimFloat Uint63 FloatOps SpecFloat.
From stdpp Require Import gmap strings list fin_maps.

Local Open Scope string_scope.
Local Open Scope Z_scope.

(** Go's [error] values are compared by identity of the sentinel; a message
    identifies the sentinel here. *)
Definition error : Type := string.

(** A Go call either returns or panics. *)
Inductive outcome (A : Type) : Type :=
| Done (a : A)
| Panic (msg : string).
Arguments Done {A} a.
Arguments Panic {A} msg.

Definition obind {A B} (m : outcome A) (k : A -> outcome B) : outcome B :=
  match m with
  | Done a => k a
  | Panic msg => Panic msg
  end.

Definition nil_dereference : string :=
  "invalid memory address or nil pointer dereference".
Definition close_of_closed_channel : string := "close of closed channel".

(* ===================================================================== *)
(** * Package tarantool *)
(* ===================================================================== *)
Module Tarantool.

(** ** The imported package msgpcode (gopkg.in/vmihailenco/msgpack.v2/codes)

    [msgpack.go] imports these markers and range tests; they are the
    markers of the msgpack format. *)
Module msgpcode.
Definition PosFixedNumHigh : Z := 0x7f.
Definition NegFixedNumLow : Z := 0xe0.

Definition Uint8 : Z := 0xcc.
Definition Uint16 : Z := 0xcd.
Definition Uint32 : Z := 0xce.
Definition Uint64 : Z := 0xcf.

Definition Float : Z := 0xca.
Definition Double : Z := 0xcb.

Definition Int8 : Z := 0xd0.
Definition Int16 : Z := 0xd1.
Definition Int32 : Z := 0xd2.
Definition Int64 : Z := 0xd3.

Definition FixedStrLow : Z := 0xa0.
Definition FixedStrHigh : Z := 0xbf.
Definition Str8 : Z := 0xd9.
Definition Str16 : Z := 0xda.
Definition Str32 : Z := 0xdb.

Definition FixedArrayLow : Z := 0x90.
Definition FixedArrayHigh : Z := 0x9f.
Definition Array16 : Z := 0xdc.
Definition Array32 : Z := 0xdd.

Definition FixedMapLow : Z := 0x80.
Definition FixedMapHigh : Z := 0x8f.
Definition Map16 : Z := 0xde.
Definition Map32 : Z := 0xdf.

(** [func IsFixedNum(c byte) bool] : positive AND negative fixnums. *)
Definition IsFixedNum (c : Z) : bool :=
  (c <=? PosFixedNumHigh) || (NegFixedNumLow <=? c).
Definition IsFixedMap (c : Z) : bool :=
  (FixedMapLow <=? c) && (c <=? FixedMapHigh).
Definition IsFixedArray (c : Z) : bool :=
  (FixedArrayLow <=? c) && (c <=? FixedArrayHigh).
Definition IsFixedString (c : Z) : bool :=
  (FixedStrLow <=? c) && (c <=? FixedStrHigh).
End msgpcode.

(** A Go [byte]. *)
Definition is_byte (c : Z) : Prop := 0 <= c < 256.

(** ** msgpack.go *)

Definition msgpackIsUint (code : Z) : bool :=
  (code =? msgpcode.Uint8) || (code =? msgpcode.Uint16) ||
  (code =? msgpcode.Uint32) || (code =? msgpcode.Uint64) ||
  msgpcode.IsFixedNum code.

Definition msgpackIsMap (code : Z) : bool :=
  (code =? msgpcode.Map16) || (code =? msgpcode.Map32) ||
  msgpcode.IsFixedMap code.

Definition msgpackIsArray (code : Z) : bool :=
  (code =? msgpcode.Array16) || (code =? msgpcode.Array32) ||
  msgpcode.IsFixedArray code.

Definition msgpackIsString (code : Z) : bool :=
  msgpcode.IsFixedString code || (code =? msgpcode.Str8) ||
  (code =? msgpcode.Str16) || (code =? msgpcode.Str32).

(** ** The encoder

    [encoder] is [msgpack.Encoder] of the imported package
    gopkg.in/vmihailenco/msgpack.v2 in front of an [io.Writer].  Each of
    its methods used here puts the bytes of one value into a buffer, hands
    the buffer to the writer in one call of [Write] and returns the
    writer's error; it does not look at the number of bytes the writer
    reports.  The writer is any function from what it has taken so far and
    the bytes handed to it to the number of bytes it takes and its error,
    so a writer may take a part of a value before it fails. *)
Inductive mpvalue : Type :=
| MapLen (n : Z)
| Uint (v : Z)
| Float64 (f : float).

(** The [n] low bytes of [v], most significant first ([write1], [write2],
    [write4], [write8] behind the marker). *)
Fixpoint be (n : nat) (v : Z) : list Z :=
  match n with
  | O => []
  | S n' => Z.shiftr v (8 * Z.of_nat n') mod 256 :: be n' v
  end.

(** [math.Float64bits]: sign, biased exponent and fraction of the
    binary64 value; the not-a-number is the one of [math.NaN], which the
    seconds of a duration never are. *)
Definition Float64bits (f : float) : Z :=
  match Prim2SF f with
  | S754_zero s => if s then 2 ^ 63 else 0
  | S754_infinity s => (if s then 2 ^ 63 else 0) + 0x7ff * 2 ^ 52
  | S754_nan => 0x7ff8000000000001
  | S754_finite s m e =>
      (if s then 2 ^ 63 else 0) +
      (if Z.pos m <? 2 ^ 52 then Z.pos m
       else (e + 1075) * 2 ^ 52 + (Z.pos m - 2 ^ 52))
  end.

(** [func (e *Encoder) EncodeMapLen(l int) error] *)
Definition bytes_MapLen (l : Z) : list Z :=
  if l <? 16 then [Z.lor msgpcode.FixedMapLow (l mod 256)]
  else if l <? 65536 then msgpcode.Map16 :: be 2 l
  else msgpcode.Map32 :: be 4 l.

(** [func (e *Encoder) EncodeUint64(v uint64) error]: the shortest form. *)
Definition bytes_Uint (v : Z) : list Z :=
  let v := v mod 2 ^ 64 in
  if v <=? 127 then [v]
  else if v <=? 255 then msgpcode.Uint8 :: be 1 v
  else if v <=? 65535 then msgpcode.Uint16 :: be 2 v
  else if v <=? 4294967295 then msgpcode.Uint32 :: be 4 v
  else msgpcode.Uint64 :: be 8 v.

(** [func (e *Encoder) EncodeFloat64(n float64) error] *)
Definition bytes_Float64 (f : float) : list Z :=
  msgpcode.Double :: be 8 (Float64bits f).

Definition encode (v : mpvalue) : list Z :=
  match v with
  | MapLen n => bytes_MapLen n
  | Uint u => bytes_Uint u
  | Float64 f => bytes_Float64 f
  end.

Record encoder : Type := mkEncoder {
  written : list Z;
  writer : list Z -> list Z -> nat * option error
}.

(** An encoder method: the encoder after the call and the returned error. *)
Definition encoding : Type := encoder -> encoder * option error.

(** [func (e *Encoder) write(b []byte) error { _, err := e.w.Write(b);
    return err }] *)
Definition write (p : list Z) : encoding := fun e =>
  let '(n, err) := writer e (written e) p in
  (mkEncoder (written e ++ take n p) (writer e), err).

(** [err = a; if err != nil { return err }; b] *)
Definition andThen (a b : encoding) : encoding := fun e =>
  match a e with
  | (e', Some err) => (e', Some err)
  | (e', None) => b e'
  end.
Definition skip : encoding := fun e => (e, None).

Declare Scope enc_scope.
Delimit Scope enc_scope with enc.
Notation "a ;; b" := (andThen a b)
  (at level 100, b at level 200, right associativity) : enc_scope.

Definition EncodeMapLen (l : Z) : encoding := write (bytes_MapLen l).

(** [enc.Encode(v)] at a [float64]. *)
Definition EncodeFloat64 (f : float) : encoding := write (bytes_Float64 f).

(** Modelled from the spec: [encodeUint] is called by stream.go and
    declared outside the files embedded here; section 4.3 has the helpers
    "encoding unsigned integers in minimal correct form", so it is the
    encoder's [EncodeUint64] at its argument. *)
Definition encodeUint (v : Z) : encoding := write (bytes_Uint v).

(** ** time.Duration *)

Definition Nanosecond : Z := 1.
Definition Second : Z := 1000000000.

(** [float64(x)] at an integer whose magnitude is below 2^63. *)
Definition float64_of_int (x : Z) : float :=
  if x <? 0
  then PrimFloat.opp (PrimFloat.of_uint63 (Uint63.of_Z (- x)))
  else PrimFloat.of_uint63 (Uint63.of_Z x).

(** [func (d Duration) Seconds() float64]: Go's [/] and [%] truncate. *)
Definition Seconds (d : Z) : float :=
  let sec := Z.quot d Second in
  let nsec := Z.rem d Second in
  PrimFloat.add (float64_of_int sec)
                (PrimFloat.div (float64_of_int nsec) (float64_of_int Second)).

(** ** stream.go *)

Definition DefaultIsolationLevel : Z := 0.
Definition ReadCommittedLevel : Z := 1.
Definition ReadConfirmedLevel : Z := 2.
Definition BestEffortLevel : Z := 3.

Section Bodies.
(** The protocol keys live in const.go, which is outside the embedded
    files: they are parameters. *)
Variable KeyTimeout : Z.
Variable KeyTxnIsolation : Z.

Definition fillBegin (txnIsolation : Z) (timeout : Z) : encoding :=
  let hasTimeout := 0 <? timeout in
  let hasIsolationLevel := negb (txnIsolation =? DefaultIsolationLevel) in
  let mapLen := 0 in
  let mapLen := if hasTimeout then mapLen + 1 else mapLen in
  let mapLen := if hasIsolationLevel then mapLen + 1 else mapLen in
  (EncodeMapLen mapLen ;;
   (if hasTimeout
    then encodeUint KeyTimeout ;; EncodeFloat64 (Seconds timeout)
    else skip) ;;
   (if hasIsolationLevel
    then encodeUint KeyTxnIsolation ;; encodeUint txnIsolation
    else skip))%enc.

Definition fillCommit : encoding := EncodeMapLen 0.
Definition fillRollback : encoding := EncodeMapLen 0.
End Bodies.

(** Reading a body back: a map header followed by exactly that many
    key/value pairs with unsigned-integer keys. *)
Fixpoint read_pairs (n : nat) (l : list mpvalue) : option (list (Z * mpvalue)) :=
  match n, l with
  | O, [] => Some []
  | S n', Uint k :: v :: rest =>
      match read_pairs n' rest with
      | Some ps => Some ((k, v) :: ps)
      | None => None
      end
  | _, _ => None
  end.

Definition read_map (l : list mpvalue) : option (list (Z * mpvalue)) :=
  match l with
  | MapLen n :: rest =>
      if (0 <=? n) then read_pairs (Z.to_nat n) rest else None
  | _ => None
  end.

Definition has_key (k : Z) (m : list (Z * mpvalue)) : bool :=
  existsb (fun kv => fst kv =? k) m.

(** A writer that takes everything (a [bytes.Buffer]), and an encoder
    over it that has written nothing yet. *)
Definition take_all (taken p : list Z) : nat * option error := (length p, None).
Definition buffer : encoder := mkEncoder [] take_all.

(** The values a Begin body consists of, after the map header. *)
Definition begin_entries (KeyTimeout KeyTxnIsolation txnIsolation timeout : Z)
  : list (Z * mpvalue) :=
  (if 0 <? timeout then [(KeyTimeout, Float64 (Seconds timeout))] else []) ++
  (if txnIsolation =? DefaultIsolationLevel then []
   else [(KeyTxnIsolation, Uint txnIsolation)]).

Definition flatten_entries (m : list (Z * mpvalue)) : list mpvalue :=
  flat_map (fun kv => [Uint (fst kv); snd kv]) m.

(** ** The physical connection (connection.go, outside the files embedded)

    Modelled from the spec: section 1 assumes "a single physical
    connection abstraction" offering dial(address, options) -> connection
    | error, Close(), ConnectedNow(), ClosedNow(), Addr() and
    Send(request, streamId) -> future, and section 3 gives it the states
    connecting, connected and closed.  Connections are objects on a heap;
    a non-nil [*Connection] is an index into it.  What the network answers
    is scripted in the world, indexed by the number of interactions so
    far, so that any sequence of answers can be played. *)
Abbreviation ptr := nat (only parsing).

Inductive Status : Type := Connecting | Connected | Closed.

Record Connection : Type := mkConnection {
  addr : string;
  status : Status
}.

(** A [Request]; [reqConn] is [Some c] when the request implements
    [ConnectedRequest] and its [Conn()] returns [c] ([c = None]: nil). *)
Record Request : Type := mkRequest {
  reqCode : Z;
  reqConn : option (option ptr)
}.

Inductive Event : Type :=
| EvDial (a : string)
| EvClose (c : ptr)
| EvSend (c : ptr) (req : Request) (streamId : Z)
| EvDo (c : ptr) (req : Request)
| EvCall (c : ptr) (fn : string).

Inductive DialAnswer : Type :=
| DialError (e : error)
| DialConn (live : bool).

Record World : Type := mkWorld {
  heap : list Connection;
  trace : list Event;
  dialer : nat -> string -> DialAnswer;
  closer : nat -> ptr -> option error;
  caller : nat -> ptr -> string -> list (list string) * option error
}.

Definition now (w : World) : nat := length (trace w).

Definition record (ev : Event) (w : World) : World :=
  mkWorld (heap w) (trace w ++ [ev]) (dialer w) (closer w) (caller w).

Definition allocate (c : Connection) (w : World) : World :=
  mkWorld (heap w ++ [c]) (trace w) (dialer w) (closer w) (caller w).

Definition set_status (st : Status) (c : Connection) : Connection :=
  mkConnection (addr c) st.

Definition mark (p : ptr) (st : Status) (w : World) : World :=
  mkWorld (alter (set_status st) p (heap w)) (trace w)
          (dialer w) (closer w) (caller w).

(** A method called through a nil pointer panics as soon as it reads the
    receiver. *)
Definition deref (p : option ptr) : outcome ptr :=
  match p with
  | Some c => Done c
  | None => Panic nil_dereference
  end.

(** [func Connect(addr string, opts Opts) (conn *Connection, err error)] *)
Definition Connect (w : World) (a : string)
  : World * option ptr * option error :=
  match dialer w (now w) a with
  | DialError e => (record (EvDial a) w, None, Some e)
  | DialConn live =>
      let st := if live then Connected else Connecting in
      (record (EvDial a) (allocate (mkConnection a st) w),
       Some (length (heap w)), None)
  end.

Definition ConnectedNow (w : World) (c : ptr) : bool :=
  match heap w !! c with
  | Some o => match status o with Connected => true | _ => false end
  | None => false
  end.

Definition ClosedNow (w : World) (c : ptr) : bool :=
  match heap w !! c with
  | Some o => match status o with Closed => true | _ => false end
  | None => false
  end.

Definition Connection_Addr (w : World) (c : ptr) : string :=
  match heap w !! c with
  | Some o => addr o
  | None => ""
  end.

(** [func (conn *Connection) Close() error]: the connection is closed
    whatever closing the transport answers. *)
Definition Connection_Close (w : World) (c : ptr) : World * option error :=
  (record (EvClose c) (mark c Closed w), closer w (now w) c).

Inductive Future : Type :=
| FutError (msg : string)
| FutSent (ev : Event).

(** [func (conn *Connection) send(req Request, streamId uint64) *Future] *)
Definition Connection_send (w : World) (c : ptr) (req : Request) (streamId : Z)
  : World * Future :=
  (record (EvSend c req streamId) w, FutSent (EvSend c req streamId)).

(** [func (conn *Connection) Do(req Request) *Future] *)
Definition Connection_Do (w : World) (c : ptr) (req : Request)
  : World * Future :=
  (record (EvDo c req) w, FutSent (EvDo c req)).

(** [func (conn *Connection) Call17Typed(functionName string, args
    interface{}, result interface{}) (err error)] at a result of type
    [*[][]string]: the decoded result and the error. *)
Definition Connection_Call17Typed (w : World) (c : ptr) (fn : string)
  : World * list (list string) * option error :=
  let '(resp, err) := caller w (now w) c fn in
  (record (EvCall c fn) w, resp, err).

(** ** Stream *)

Record Stream : Type := mkStream {
  Id : Z;
  Conn : option ptr
}.

Definition binding_mismatch : string :=
  "the passed connected request doesn't belong to the current connection or connection pool".

(** [func (s *Stream) Do(req Request) *Future] *)
Definition Stream_Do (w : World) (s : Stream) (req : Request)
  : outcome (World * Future) :=
  let forward :=
    obind (deref (Conn s)) (fun c => Done (Connection_send w c req (Id s))) in
  match reqConn req with
  | Some rc =>
      if decide (rc <> Conn s)
      then Done (w, FutError binding_mismatch)
      else forward
  | None => forward
  end.

End Tarantool.

(* ===================================================================== *)
(** * Package multi *)
(* ===================================================================== *)
Module Multi.
Import Tarantool.

Definition connConnected : Z := 0.
Definition connClosed : Z := 1.

Definition ErrEmptyAddrs : error := "addrs should not be empty".
Definition ErrWrongCheckTimeout : error :=
  "wrong check timeout, must be greater than 0".
Definition ErrNoConnection : error := "no active connections".

Fixpoint indexOf_from (i : Z) (sstring : string) (data : list string) : Z :=
  match data with
  | [] => -1
  | v :: rest =>
      if String.eqb sstring v then i else indexOf_from (i + 1) sstring rest
  end.

Definition indexOf (sstring : string) (data : list string) : Z :=
  indexOf_from 0 sstring data.

Record OptsMulti : Type := mkOptsMulti {
  CheckTimeout : Z;
  NodesGetFunctionName : string;
  ClusterDiscoveryTime : Z
}.

(** [ConnectionMulti].  [control] tells whether the control channel has
    been closed; [checking] is a ghost field telling whether the checker
    goroutine has been started.  The connection options, the mutex and
    the notification channel carry nothing the functions below branch on.
    Every store into [pool] in the package is guarded by [conn != nil], so
    the map holds non-nil pointers, and [pool !! a] is the Go value
    [pool[a]], with [None] for nil. *)
Record ConnectionMulti : Type := mkConnectionMulti {
  addrs : list string;
  opts : OptsMulti;
  state : Z;
  control : bool;
  pool : gmap string ptr;
  fallback : option ptr;
  checking : bool
}.

Definition set_addrs (l : list string) (cm : ConnectionMulti) : ConnectionMulti :=
  mkConnectionMulti l (opts cm) (state cm) (control cm) (pool cm)
                    (fallback cm) (checking cm).
Definition set_pool (m : gmap string ptr) (cm : ConnectionMulti) : ConnectionMulti :=
  mkConnectionMulti (addrs cm) (opts cm) (state cm) (control cm) m
                    (fallback cm) (checking cm).
Definition set_fallback (f : option ptr) (cm : ConnectionMulti) : ConnectionMulti :=
  mkConnectionMulti (addrs cm) (opts cm) (state cm) (control cm) (pool cm)
                    f (checking cm).
Definition set_closed (cm : ConnectionMulti) : ConnectionMulti :=
  mkConnectionMulti (addrs cm) (opts cm) connClosed true (pool cm)
                    (fallback cm) (checking cm).
Definition set_checking (cm : ConnectionMulti) : ConnectionMulti :=
  mkConnectionMulti (addrs cm) (opts cm) (state cm) (control cm) (pool cm)
                    (fallback cm) true.

Definition getState (cm : ConnectionMulti) : Z := state cm.

Definition getConnectionFromPool (cm : ConnectionMulti) (a : string)
  : option ptr * bool :=
  match pool cm !! a with
  | Some c => (Some c, true)
  | None => (None, false)
  end.

Definition setConnectionToPool (a : string) (c : ptr) (cm : ConnectionMulti)
  : ConnectionMulti :=
  set_pool (<[a := c]> (pool cm)) cm.

Definition deleteConnectionFromPool (a : string) (cm : ConnectionMulti)
  : ConnectionMulti :=
  set_pool (delete a (pool cm)) cm.

(** ** warmUp *)

Fixpoint warmUp_loop (i : nat) (l : list string) (w : World)
  (cm : ConnectionMulti) (somebodyAlive : bool) (errs : list (option error))
  : World * ConnectionMulti * bool * list (option error) :=
  match l with
  | [] => (w, cm, somebodyAlive, errs)
  | a :: rest =>
      let '(w1, conn, err) := Connect w a in
      let errs1 := <[i := err]> errs in
      match conn, err with
      | Some c, None =>
          let cm1 := match fallback cm with
                     | None => set_fallback (Some c) cm
                     | Some _ => cm
                     end in
          let cm2 := set_pool (<[a := c]> (pool cm1)) cm1 in
          let alive := if ConnectedNow w1 c then true else somebodyAlive in
          warmUp_loop (S i) rest w1 cm2 alive errs1
      | _, _ => warmUp_loop (S i) rest w1 cm somebodyAlive errs1
      end
  end.

Definition warmUp (w : World) (cm : ConnectionMulti)
  : World * ConnectionMulti * bool * list (option error) :=
  warmUp_loop 0 (addrs cm) w cm false (replicate (length (addrs cm)) None).

(** ** getCurrentConnection

    The loop returns the fallback it leaves behind and the connection it
    returns. *)
Fixpoint currentLoop (w : World) (m : gmap string ptr) (l : list string)
  (fb : option ptr) : option ptr * option ptr :=
  match l with
  | [] => (fb, fb)
  | a :: rest =>
      match m !! a with
      | Some conn =>
          if ConnectedNow w conn then (fb, Some conn)
          else currentLoop w m rest (Some conn)
      | None => currentLoop w m rest fb
      end
  end.

Definition getCurrentConnection (w : World) (cm : ConnectionMulti)
  : ConnectionMulti * option ptr :=
  let '(fb, cur) := currentLoop w (pool cm) (addrs cm) (fallback cm) in
  (set_fallback fb cm, cur).

(** ** Close *)

(** [for _, conn := range connMulti.pool { if err == nil { err =
    conn.Close() } else { conn.Close() } }] over the connections in the
    order in which the map yields them. *)
Fixpoint closeEach (conns : list ptr) (w : World) (err : option error)
  : World * option error :=
  match conns with
  | [] => (w, err)
  | c :: rest =>
      let '(w1, e) := Connection_Close w c in
      closeEach rest w1 (match err with None => e | Some _ => err end)
  end.

Section Range.
(** Go leaves the order of [range] over a map unspecified: [range_of]
    is the order the runtime picks. *)
Variable range_of : gmap string ptr -> list (string * ptr).

Definition Close (w : World) (cm : ConnectionMulti)
  : outcome (World * ConnectionMulti * option error) :=
  if control cm then Panic close_of_closed_channel
  else
    let cm1 := set_closed cm in
    let '(w1, err) := closeEach (map snd (range_of (pool cm1))) w None in
    let w2 := match fallback cm1 with
              | Some f => fst (Connection_Close w1 f)
              | None => w1
              end in
    Done (w2, cm1, err).

(** ** ConnectWithOpts *)

Definition ConnectWithOpts (w : World) (addrs0 : list string) (opts0 : OptsMulti)
  : outcome (World * option ConnectionMulti * option error) :=
  if (length addrs0 =? 0)%nat then Done (w, None, Some ErrEmptyAddrs)
  else if CheckTimeout opts0 <=? 0 then Done (w, None, Some ErrWrongCheckTimeout)
  else
    let opts1 :=
      if ClusterDiscoveryTime opts0 <=? 0
      then mkOptsMulti (CheckTimeout opts0) (NodesGetFunctionName opts0)
                       (60 * Second)
      else opts0 in
    let connMulti :=
      mkConnectionMulti addrs0 opts1 connConnected false ∅ None false in
    let '(w1, cm1, somebodyAlive, _) := warmUp w connMulti in
    if negb somebodyAlive
    then obind (Close w1 cm1)
               (fun _r => Done (fst (fst _r), None, Some ErrNoConnection))
    else Done (w1, Some (set_checking cm1), None).

Definition Connect (w : World) (addrs0 : list string)
  : outcome (World * option ConnectionMulti * option error) :=
  ConnectWithOpts w addrs0 (mkOptsMulti (1 * Second) "" 0).
End Range.

(** ** Delegation *)

Definition Call17Typed (w : World) (cm : ConnectionMulti) (fn : string)
  : outcome (World * ConnectionMulti * list (list string) * option error) :=
  let '(cm1, cur) := getCurrentConnection w cm in
  obind (deref cur) (fun c =>
    let '(w1, resp, err) := Connection_Call17Typed w c fn in
    Done (w1, cm1, resp, err)).

(** [func (connMulti *ConnectionMulti) Do(req tarantool.Request)
    *tarantool.Future] *)
Definition Do (w : World) (cm : ConnectionMulti) (req : Request)
  : outcome (World * ConnectionMulti * Future) :=
  match reqConn req with
  | Some rc =>
      obind (deref rc) (fun c =>
        let '(_, belongs) := getConnectionFromPool cm (Connection_Addr w c) in
        if negb belongs
        then Done (w, cm, FutError binding_mismatch)
        else let '(w1, fut) := Connection_Do w c req in Done (w1, cm, fut))
  | None =>
      let '(cm1, cur) := getCurrentConnection w cm in
      obind (deref cur) (fun c =>
        let '(w1, fut) := Connection_Do w c req in Done (w1, cm1, fut))
  end.

(** [func (connMulti *ConnectionMulti) ConnectedNow() bool]: Go's [&&]
    does not evaluate its right operand when the left one is false. *)
Definition ConnectionMulti_ConnectedNow (w : World) (cm : ConnectionMulti)
  : outcome (ConnectionMulti * bool) :=
  if getState cm =? connConnected then
    let '(cm1, cur) := getCurrentConnection w cm in
    obind (deref cur) (fun c => Done (cm1, ConnectedNow w c))
  else Done (cm, false).

(** ** checker *)

(** What one pass through the [select] ends with. *)
Inductive Next : Type := Continue | Return.

(** The source that the [select] serves. *)
Inductive Wakeup : Type :=
| OnControl
| OnNotify (conn : ptr)
| OnRefresh
| OnTimer.

Definition onNotify (c : ptr) (w : World) (cm : ConnectionMulti)
  : World * ConnectionMulti * Next :=
  if getState cm =? connClosed then (w, cm, Return)
  else if ClosedNow w c then
    let a := Connection_Addr w c in
    match getConnectionFromPool cm a with
    | (_, false) => (w, cm, Continue)
    | (_, true) =>
        let '(w1, conn, _) := Tarantool.Connect w a in
        match conn with
        | Some c' => (w1, setConnectionToPool a c' cm, Continue)
        | None => (w1, deleteConnectionFromPool a cm, Continue)
        end
    end
  else (w, cm, Continue).

(** "Fill pool with new connections." *)
Fixpoint fillPool (tracked : list string) (l : list string) (w : World)
  (cm : ConnectionMulti) : World * ConnectionMulti :=
  match l with
  | [] => (w, cm)
  | v :: rest =>
      if indexOf v tracked <? 0 then
        let '(w1, conn, _) := Tarantool.Connect w v in
        match conn with
        | Some c => fillPool tracked rest w1 (setConnectionToPool v c cm)
        | None => fillPool tracked rest w1 cm
        end
      else fillPool tracked rest w cm
  end.

(** "Clear pool from obsolete connections." *)
Fixpoint clearPool (fresh : list string) (l : list string) (w : World)
  (cm : ConnectionMulti) : World * ConnectionMulti :=
  match l with
  | [] => (w, cm)
  | v :: rest =>
      if indexOf v fresh <? 0 then
        let w1 := match getConnectionFromPool cm v with
                  | (Some con, true) => fst (Connection_Close w con)
                  | _ => w
                  end in
        clearPool fresh rest w1 (deleteConnectionFromPool v cm)
      else clearPool fresh rest w cm
  end.

Definition onRefresh (w : World) (cm : ConnectionMulti)
  : outcome (World * ConnectionMulti * Next) :=
  if (getState cm =? connClosed) ||
     String.eqb (NodesGetFunctionName (opts cm)) ""
  then Done (w, cm, Continue)
  else
    obind (Call17Typed w cm (NodesGetFunctionName (opts cm))) (fun r =>
      let '(w1, cm1, resp, err) := r in
      match err with
      | Some _ => Done (w1, cm1, Continue)
      | None =>
          match resp with
          | addrs1 :: _ =>
              if (0 <? length addrs1)%nat then
                let '(w2, cm2) := fillPool (addrs cm1) addrs1 w1 cm1 in
                let '(w3, cm3) := clearPool addrs1 (addrs cm2) w2 cm2 in
                Done (w3, set_addrs addrs1 cm3, Continue)
              else Done (w1, cm1, Continue)
          | [] => Done (w1, cm1, Continue)
          end
      end).

Fixpoint timerLoop (l : list string) (w : World) (cm : ConnectionMulti)
  : World * ConnectionMulti * Next :=
  match l with
  | [] => (w, cm, Continue)
  | a :: rest =>
      if getState cm =? connClosed then (w, cm, Return)
      else
        let live := match getConnectionFromPool cm a with
                    | (Some conn, true) => negb (ClosedNow w conn)
                    | _ => false
                    end in
        if live then timerLoop rest w cm
        else
          let '(w1, conn, _) := Tarantool.Connect w a in
          match conn with
          | Some c => timerLoop rest w1 (setConnectionToPool a c cm)
          | None => timerLoop rest w1 cm
          end
  end.

Definition onTimer (w : World) (cm : ConnectionMulti)
  : World * ConnectionMulti * Next :=
  timerLoop (addrs cm) w cm.

(** One pass through the body of the loop. *)
Definition checker_select (wk : Wakeup) (w : World) (cm : ConnectionMulti)
  : outcome (World * ConnectionMulti * Next) :=
  match wk with
  | OnControl => Done (w, cm, Return)
  | OnNotify c => Done (onNotify c w cm)
  | OnRefresh => onRefresh w cm
  | OnTimer => Done (onTimer w cm)
  end.

(** [for connMulti.getState() != connClosed { select { ... } }] along the
    wake-ups that arrive; when they are used up the goroutine waits. *)
Fixpoint checker_loop (wakeups : list Wakeup) (w : World) (cm : ConnectionMulti)
  : outcome (World * ConnectionMulti) :=
  match wakeups with
  | [] => Done (w, cm)
  | wk :: rest =>
      if getState cm =? connClosed then Done (w, cm)
      else
        obind (checker_select wk w cm) (fun r =>
          let '(w1, cm1, next) := r in
          match next with
          | Return => Done (w1, cm1)
          | Continue => checker_loop rest w1 cm1
          end)
  end.

(** [time.NewTicker(d)]: "NewTicker panics if d <= 0". *)
Definition non_positive_interval : string :=
  "non-positive interval for NewTicker".
Definition NewTicker (d : Z) : outcome unit :=
  if d <=? 0 then Panic non_positive_interval else Done tt.

(** [refreshTimer := time.NewTicker(connMulti.opts.ClusterDiscoveryTime);
     timer := time.NewTicker(connMulti.opts.CheckTimeout)], then the loop;
    the deferred [Stop]s release the tickers and change nothing here. *)
Definition checker (wakeups : list Wakeup) (w : World) (cm : ConnectionMulti)
  : outcome (World * ConnectionMulti) :=
  obind (NewTicker (ClusterDiscoveryTime (opts cm))) (fun refreshTimer =>
  obind (NewTicker (CheckTimeout (opts cm))) (fun timer =>
  checker_loop wakeups w cm)).

End Multi.

(* ===================================================================== *)
(** * The specification's words *)
(* ===================================================================== *)
Module Spec.
Import Tarantool Multi.

(** What the msgpack format says about a leading byte: it starts an
    unsigned integer when it is a positive fixint (0x00..0x7f) or one of
    the markers uint8..uint64; it starts a signed integer when it is a
    negative fixint (0xe0..0xff) or one of the markers int8..int64. *)
Definition leads_unsigned (c : Z) : bool :=
  ((0 <=? c) && (c <=? 0x7f)) || ((0xcc <=? c) && (c <=? 0xcf)).
Definition leads_signed (c : Z) : bool :=
  ((0xe0 <=? c) && (c <=? 0xff)) || ((0xd0 <=? c) && (c <=? 0xd3)).

(** The entries of the tracked addresses in configured order, the
    addresses without an entry left out. *)
Definition entries (cm : ConnectionMulti) : list ptr :=
  omap (fun a => pool cm !! a) (addrs cm).

(** "the first entry reporting connected-now" *)
Definition first_connected (w : World) (cm : ConnectionMulti) : option ptr :=
  List.find (ConnectedNow w) (entries cm).

(** "the last inspected non-null entry", the fallback staying as it is
    when no entry was inspected. *)
Definition last_inspected (cm : ConnectionMulti) : option ptr :=
  match last (entries cm) with
  | Some c => Some c
  | None => fallback cm
  end.

(** "ConfigError": one of the two errors about the configuration. *)
Definition ConfigError (e : option error) : Prop :=
  e = Some ErrEmptyAddrs \/ e = Some ErrWrongCheckTimeout.

(** "presently tracked by the pool": the connection is an entry of the
    pool map. *)
Definition tracked (cm : ConnectionMulti) (c : ptr) : Prop :=
  exists a : string, pool cm !! a = Some c.

(** Closing the connections of a list one after the other, whatever
    each close answers: the world afterwards and the answers in order. *)
Fixpoint closing (conns : list ptr) (w : World) : World * list (option error) :=
  match conns with
  | [] => (w, [])
  | c :: rest =>
      let '(w1, e) := Connection_Close w c in
      let '(w2, es) := closing rest w1 in
      (w2, e :: es)
  end.

(** "the first encountered error" of a sequence of answers. *)
Fixpoint first_error (es : list (option error)) : option error :=
  match es with
  | [] => None
  | Some e :: _ => Some e
  | None :: rest => first_error rest
  end.

(** Every entry of the pool map is a connection on the heap to the
    address it is filed under (each entry comes from a dial of its key). *)
Definition pool_filed (w : World) (cm : ConnectionMulti) : bool :=
  forallb (fun kc : string * ptr =>
             match heap w !! snd kc with
             | Some o => String.eqb (addr o) (fst kc)
             | None => false
             end)
          (map_to_list (pool cm)).

(** A connection to [a] opened since the world [w] is the entry of [a]
    in the pool of [cm'], and it is not closed in [w']. *)
Definition opened (w w' : World) (cm' : ConnectionMulti) (a : string) : Prop :=
  exists (p : ptr) (st : Status),
    pool cm' !! a = Some p /\ (length (heap w) <= p)%nat /\
    heap w' !! p = Some (mkConnection a st) /\ st <> Closed.

(** What becomes of the address [a] when the addresses [ds] are dialled
    one after the other from the time [t0] on, each dial that gives a
    connection filing it under the address dialled: either every dial of
    [a] fails and the entry of [a] is as before; or the last dial of [a]
    that gives a connection gives the entry of [a]: a connection to [a]
    put on the heap since [w], in the state the dial answered. *)
Definition dialled (w w' : World) (cm cm' : ConnectionMulti) (t0 : nat)
  (ds : list string) (a : string) : Prop :=
  ((forall k : nat, ds !! k = Some a ->
      exists e : error, dialer w (t0 + k) a = DialError e) /\
   pool cm' !! a = pool cm !! a) \/
  (exists (k : nat) (live : bool) (p : ptr),
     ds !! k = Some a /\
     dialer w (t0 + k) a = DialConn live /\
     (forall j : nat, (k < j)%nat -> ds !! j = Some a ->
        exists e : error, dialer w (t0 + j) a = DialError e) /\
     pool cm' !! a = Some p /\
     (length (heap w) <= p)%nat /\
     heap w' !! p =
       Some (mkConnection a (if live then Connected else Connecting))).

(** "no update": the tracked list, the pool map and the connections are
    what they were. *)
Definition untouched (w w' : World) (cm cm' : ConnectionMulti) : Prop :=
  addrs cm' = addrs cm /\ pool cm' = pool cm /\ heap w' = heap w.

(** The outcome of a discovery tick that was answered, through the
    connection [c], with the address list [fresh]:
    - the tracked list is [fresh];
    - a retained address keeps its entry, and the entry's connection is
      as it was;
    - an address no longer present has no entry, and the connection it
      had is closed;
    - the newly present addresses of [fresh] are dialled in order, after
      the call; a newly present address gets as its entry the connection
      that the last dial of it to give one returns, and keeps the entry it
      had when every dial of it fails;
    - beyond the call itself, the tick dialled the newly present
      addresses of [fresh] in order and closed the entries of the
      addresses no longer present, and nothing else. *)
Definition reconciled (w w' : World) (cm cm' : ConnectionMulti) (c : ptr)
  (fresh : list string) : Prop :=
  addrs cm' = fresh /\
  (forall a : string, a ∈ addrs cm -> a ∈ fresh ->
     pool cm' !! a = pool cm !! a /\
     forall p : ptr, pool cm !! a = Some p -> heap w' !! p = heap w !! p) /\
  (forall a : string, a ∈ addrs cm -> a ∉ fresh ->
     pool cm' !! a = None /\
     forall p : ptr, pool cm !! a = Some p -> ClosedNow w' p = true) /\
  (forall a : string, a ∈ fresh -> a ∉ addrs cm ->
     dialled w w' cm cm' (S (now w))
       (List.filter (fun v => bool_decide (v ∉ addrs cm)) fresh) a) /\
  exists closed : list ptr,
    trace w' =
      (trace w ++
       EvCall c (NodesGetFunctionName (opts cm)) ::
       map EvDial (List.filter (fun v => bool_decide (v ∉ addrs cm)) fresh) ++
       map EvClose closed)%list /\
    forall p : ptr,
      In p closed <->
      exists a : string,
        (a ∈ addrs cm) /\ (a ∉ fresh) /\ pool cm !! a = Some p.

(** Handing the chunks of a list to the writer one after the other,
    stopping at the first error. *)
Fixpoint write_all (ps : list (list Z)) : encoding :=
  match ps with
  | [] => skip
  | p :: rest => andThen (write p) (write_all rest)
  end.

(** The values of a Begin body, header included, and their bytes. *)
Definition begin_values (KeyTimeout KeyTxnIsolation txnIsolation timeout : Z)
  : list mpvalue :=
  MapLen (Z.of_nat (length (begin_entries KeyTimeout KeyTxnIsolation
                                          txnIsolation timeout)))
  :: flatten_entries (begin_entries KeyTimeout KeyTxnIsolation
                                    txnIsolation timeout).

Definition begin_bytes (KeyTimeout KeyTxnIsolation txnIsolation timeout : Z)
  : list Z :=
  flat_map encode (begin_values KeyTimeout KeyTxnIsolation txnIsolation timeout).

(** A writer that takes all it is handed and reports no error. *)
Definition accepting (e : encoder) : Prop :=
  forall taken p : list Z, writer e taken p = (length p, None).

(** A writer that keeps the contract of [io.Writer]: it takes no more than
    it is handed, and reports an error when it takes less. *)
Definition honest (e : encoder) : Prop :=
  forall (taken p : list Z) (n : nat) (err : option error),
    writer e taken p = (n, err) ->
    (n <= length p)%nat /\ (err = None -> n = length p).

(** Reading the bytes back, as the msgpack format has them: what a value
    is on the wire. *)
Inductive wire : Type :=
| WMapLen (n : Z)
| WUint (v : Z)
| WDouble (bits : Z).

Fixpoint take_be (n : nat) (l : list Z) : option (Z * list Z) :=
  match n with
  | O => Some (0, l)
  | S n' =>
      match l with
      | [] => None
      | b :: rest =>
          match take_be n' rest with
          | Some (x, r) => Some (b * 256 ^ Z.of_nat n' + x, r)
          | None => None
          end
      end
  end.

Definition read_uint (n : nat) (l : list Z) : option (wire * list Z) :=
  match take_be n l with
  | Some (x, r) => Some (WUint x, r)
  | None => None
  end.

Definition read_value (l : list Z) : option (wire * list Z) :=
  match l with
  | [] => None
  | b :: rest =>
      if (0 <=? b) && (b <=? 0x7f) then Some (WUint b, rest)
      else if (0x80 <=? b) && (b <=? 0x8f) then Some (WMapLen (b - 0x80), rest)
      else if b =? 0xcc then read_uint 1 rest
      else if b =? 0xcd then read_uint 2 rest
      else if b =? 0xce then read_uint 4 rest
      else if b =? 0xcf then read_uint 8 rest
      else if b =? 0xcb then
        match take_be 8 rest with
        | Some (x, r) => Some (WDouble x, r)
        | None => None
        end
      else None
  end.

Fixpoint read_entries (n : nat) (l : list Z) : option (list (Z * wire)) :=
  match n with
  | O => match l with [] => Some [] | _ => None end
  | S n' =>
      match read_value l with
      | Some (WUint k, rest) =>
          match read_value rest with
          | Some (v, rest') =>
              match read_entries n' rest' with
              | Some ps => Some ((k, v) :: ps)
              | None => None
              end
          | None => None
          end
      | _ => None
      end
  end.

(** A body: a map header and exactly that many entries with unsigned
    integer keys, and no byte more. *)
Definition read_body (l : list Z) : option (list (Z * wire)) :=
  match read_value l with
  | Some (WMapLen n, rest) => read_entries (Z.to_nat n) rest
  | _ => None
  end.

(** The entries of a Begin body on the wire. *)
Definition begin_wire (KeyTimeout KeyTxnIsolation txnIsolation timeout : Z)
  : list (Z * wire) :=
  (if 0 <? timeout
   then [(KeyTimeout, WDouble (Float64bits (Seconds timeout) mod 2 ^ 64))]
   else []) ++
  (if txnIsolation =? DefaultIsolationLevel then []
   else [(KeyTxnIsolation, WUint txnIsolation)]).

(** An unsigned 64-bit integer. *)
Definition is_uint64 (v : Z) : Prop := 0 <= v < 2 ^ 64.

(** The 256 values of a byte. *)
Definition all_bytes : list Z := map Z.of_nat (seq 0 256).

(** The bit patterns of the msgpack format: positive fixint 0xxxxxxx,
    negative fixint 111xxxxx, fixmap 1000xxxx, fixarray 1001xxxx, fixstr
    101xxxxx. *)
Definition is_positive_fixint (c : Z) : bool := Z.land c 0x80 =? 0.
Definition is_negative_fixint (c : Z) : bool := Z.land c 0xe0 =? 0xe0.
Definition is_fixmap (c : Z) : bool := Z.land c 0xf0 =? 0x80.
Definition is_fixarray (c : Z) : bool := Z.land c 0xf0 =? 0x90.
Definition is_fixstr (c : Z) : bool := Z.land c 0xe0 =? 0xa0.

(** Every entry of a pool map is a connection on the heap to the address
    it is filed under. *)
Definition filed (h : list Connection) (m : gmap string ptr) : Prop :=
  forall (a : string) (p : ptr),
    m !! a = Some p -> exists o : Connection, h !! p = Some o /\ addr o = a.

(** Every key of the pool map is a tracked address. *)
Definition keys_tracked (cm : ConnectionMulti) : bool :=
  forallb (fun kc : string * ptr => bool_decide (fst kc ∈ addrs cm))
          (map_to_list (pool cm)).

(** The invariant of the pool map. *)
Definition pool_ok (w : World) (cm : ConnectionMulti) : bool :=
  pool_filed w cm && keys_tracked cm.

(** The entry of an address is "live" when it is there and not closed. *)
Definition live_entry (w : World) (cm : ConnectionMulti) (a : string) : bool :=
  match pool cm !! a with
  | Some p => negb (ClosedNow w p)
  | None => false
  end.

End Spec.

(* ===================================================================== *)
(** * Sample worlds and pools *)
(* ===================================================================== *)
Module Samples.
Import Tarantool Multi.

(** A network on which no dial succeeds, closing never fails and the
    discovery function is unknown. *)
Definition quiet (h : list Connection) : World :=
  mkWorld h []
    (fun _ _ => DialError "connection refused")
    (fun _ _ => None)
    (fun _ _ _ => ([], Some "procedure is not defined")).

(** A network that hands out a connection object for every dial, not yet
    connected (the connection keeps reconnecting in the background). *)
Definition reconnecting : World :=
  mkWorld [] []
    (fun _ _ => DialConn false)
    (fun _ _ => None)
    (fun _ _ _ => ([], Some "procedure is not defined")).

Definition one_second : OptsMulti := mkOptsMulti (1 * Second) "" 0.
Definition discovering : OptsMulti := mkOptsMulti (1 * Second) "get_nodes" 0.

(** Two connections to the same address; the pool tracks the first. *)
Definition twins : World :=
  quiet [mkConnection "a:3301" Connected; mkConnection "a:3301" Connected].
Definition pool_a : ConnectionMulti :=
  mkConnectionMulti ["a:3301"] one_second connConnected false
    {["a:3301" := 0%nat]} (Some 0%nat) true.
Definition bound_to (c : ptr) : Request := mkRequest 1 (Some (Some c)).

Definition stream7 : Stream := mkStream 7 (Some 0%nat).

(** A network on which every dial connects at once and closing the
    transport of connection 0 reports an error. *)
Definition flaky : World :=
  mkWorld [] []
    (fun _ _ => DialConn true)
    (fun _ c => if (c =? 0)%nat then Some "broken pipe" else None)
    (fun _ _ _ => ([], Some "procedure is not defined")).

(** The pool that [ConnectWithOpts] builds on [flaky] from an address
    given twice, and the world it leaves. *)
Definition doubled_world : World :=
  mkWorld [mkConnection "a:3301" Connected; mkConnection "a:3301" Connected]
          [EvDial "a:3301"; EvDial "a:3301"]
          (dialer flaky) (closer flaky) (caller flaky).
Definition doubled_pool : ConnectionMulti :=
  mkConnectionMulti ["a:3301"; "a:3301"]
    (mkOptsMulti (1 * Second) "" (60 * Second)) connConnected false
    {["a:3301" := 1%nat]} (Some 0%nat) true.

(** A cluster of two nodes, both connected, whose discovery function
    answers [resp]; every dial connects at once. *)
Definition cluster (resp : list (list string)) : World :=
  mkWorld [mkConnection "a:3301" Connected; mkConnection "b:3301" Connected]
          []
          (fun _ _ => DialConn true)
          (fun _ _ => None)
          (fun _ _ _ => (resp, None)).
Definition pool_ab : ConnectionMulti :=
  mkConnectionMulti ["a:3301"; "b:3301"] discovering connConnected false
    (<["a:3301" := 0%nat]> {["b:3301" := 1%nat]}) (Some 0%nat) true.

(** A network on which the dial of "b:3301" gives a live connection and
    every other dial fails. *)
Definition only_b : World :=
  mkWorld [] []
    (fun _ a => if String.eqb a "b:3301" then DialConn true
                else DialError "connection refused")
    (fun _ _ => None)
    (fun _ _ _ => ([], Some "procedure is not defined")).

(** What [ConnectWithOpts] returns on [only_b] for a and b. *)
Definition built_world : World :=
  mkWorld [mkConnection "b:3301" Connected]
          [EvDial "a:3301"; EvDial "b:3301"]
          (dialer only_b) (closer only_b) (caller only_b).
Definition built_pool : ConnectionMulti :=
  mkConnectionMulti ["a:3301"; "b:3301"]
    (mkOptsMulti (1 * Second) "" (60 * Second)) connConnected false
    {["b:3301" := 0%nat]} (Some 0%nat) true.

(** A writer with room for [cap] bytes: it takes what fits and reports
    a short write for the rest. *)
Definition limited_writer (cap : nat) (taken p : list Z) : nat * option error :=
  if (length taken + length p <=? cap)%nat then (length p, None)
  else ((cap - length taken)%nat, Some "short write").
Definition limited (cap : nat) : encoder := mkEncoder [] (limited_writer cap).

(** A buffer that holds a ping body (an empty map) already. *)
Definition used_buffer : encoder := mkEncoder [0x80] take_all.

(** [built_world] after its connection was closed from outside, and
    after the checker has dialled a once and b twice since. *)
Definition built_b_closed : World :=
  mkWorld [mkConnection "b:3301" Closed]
          [EvDial "a:3301"; EvDial "b:3301"]
          (dialer only_b) (closer only_b) (caller only_b).
Definition built_b_twice : World :=
  mkWorld [mkConnection "b:3301" Closed; mkConnection "b:3301" Connected;
           mkConnection "b:3301" Connected]
          [EvDial "a:3301"; EvDial "b:3301";
           EvDial "a:3301"; EvDial "b:3301"; EvDial "b:3301"]
          (dialer only_b) (closer only_b) (caller only_b).

(** The pool of the two nodes with a discovery function, as
    [ConnectWithOpts] returns it, and the cluster when no dial succeeds. *)
Definition discovering_pool : ConnectionMulti :=
  mkConnectionMulti ["a:3301"; "b:3301"]
    (mkOptsMulti (1 * Second) "get_nodes" (60 * Second)) connConnected false
    (<["a:3301" := 0%nat]> {["b:3301" := 1%nat]}) (Some 0%nat) true.
Definition cluster_down (resp : list (list string)) : World :=
  mkWorld [mkConnection "a:3301" Connected; mkConnection "b:3301" Connected]
          []
          (fun _ _ => DialError "connection refused")
          (fun _ _ => None)
          (fun _ _ _ => (resp, None)).

(** The cluster after connection 0 was closed from outside. *)
Definition cluster_a_closed : World :=
  mkWorld [mkConnection "a:3301" Closed; mkConnection "b:3301" Connected]
          []
          (fun _ _ => DialConn true)
          (fun _ _ => None)
          (fun _ _ _ => ([], None)).

End Samples.

(* ===================================================================== *)
(** * Theorems *)
(* ===================================================================== *)
Import Tarantool Multi Spec Samples.

(* --------------------------------------------------------------------- *)
(** ** Facts about msgpack.go *)

Lemma msgpackIsUint_ranges (c : Z) :
  msgpackIsUint c = true <->
  c <= 0x7f \/ 0xcc <= c <= 0xcf \/ 0xe0 <= c.
Proof.
  unfold msgpackIsUint, msgpcode.IsFixedNum, msgpcode.Uint8, msgpcode.Uint16,
    msgpcode.Uint32, msgpcode.Uint64, msgpcode.PosFixedNumHigh,
    msgpcode.NegFixedNumLow.
  rewrite !orb_true_iff, !Z.eqb_eq, !Z.leb_le. lia.
Qed.

(** On bytes the classifier accepts the leading bytes of unsigned integers
    and, beyond them, exactly the negative fixints. *)
Lemma msgpackIsUint_on_bytes (c : Z) :
  is_byte c ->
  msgpackIsUint c = leads_unsigned c || ((0xe0 <=? c) && (c <=? 0xff)).
Proof.
  intros [Hlo Hhi].
  apply eq_true_iff_eq. rewrite msgpackIsUint_ranges.
  unfold leads_unsigned.
  rewrite !orb_true_iff, !andb_true_iff, !Z.leb_le. lia.
Qed.

(** C9: the claim asks [msgpackIsUint] to reject every byte that begins a
    negative integer.  At the byte 0xff, the negative fixint -1, the
    classifier answers [true], although the byte leads a signed and not an
    unsigned encoding. *)
Theorem msgpackIsUint_accepts_negative_fixint :
  is_byte 0xff /\
  msgpackIsUint 0xff = true /\
  leads_unsigned 0xff = false /\
  leads_signed 0xff = true.
Proof. unfold is_byte. repeat split; try reflexivity; lia. Qed.

(* --------------------------------------------------------------------- *)
(** ** Facts about the bodies of stream.go *)

Lemma write_accepts (p : list Z) (e : encoder) :
  accepting e ->
  write p e = (mkEncoder (written e ++ p) (writer e), None).
Proof.
  intros H. unfold write. rewrite H. now rewrite firstn_all.
Qed.

Lemma write_all_accepts (ps : list (list Z)) :
  forall e : encoder,
    accepting e ->
    write_all ps e = (mkEncoder (written e ++ concat ps) (writer e), None).
Proof.
  induction ps as [|p ps IH]; intros e H.
  - destruct e as [wr wt]. cbn. now rewrite app_nil_r.
  - cbn [write_all concat]. unfold andThen. rewrite write_accepts by exact H.
    rewrite IH by exact H. cbn [written writer]. now rewrite <- app_assoc.
Qed.

(** Over a writer that keeps the contract of [io.Writer], a sequence of
    writes leaves a prefix of the bytes behind; it leaves all of them when
    no error is returned; an error returned is one the writer reported;
    and there is no error when the writer never reports one. *)
Lemma write_all_honest (ps : list (list Z)) :
  forall e : encoder,
    honest e ->
    exists (k : nat) (err : option error),
      write_all ps e =
        (mkEncoder (written e ++ take k (concat ps)) (writer e), err) /\
      (k <= length (concat ps))%nat /\
      (err = None -> k = length (concat ps)) /\
      (forall x : error, err = Some x ->
         exists (taken p : list Z) (n : nat), writer e taken p = (n, Some x)) /\
      ((forall taken p : list Z, snd (writer e taken p) = None) -> err = None).
Proof.
  induction ps as [|p ps IH]; intros e H.
  - exists 0%nat, None. destruct e as [wr wt]. cbn.
    rewrite app_nil_r. repeat split; try lia; intros; discriminate.
  - cbn [write_all concat]. unfold andThen, write.
    destruct (writer e (written e) p) as [n err] eqn:Hw.
    destruct (H _ _ _ _ Hw) as [Hn Hfull].
    destruct err as [x|].
    + exists n, (Some x).
      rewrite take_app_le by exact Hn.
      split; [reflexivity|]. split; [rewrite length_app; lia|].
      split; [discriminate|]. split.
      * intros y Hy. injection Hy as <-. now exists (written e), p, n.
      * intros Hnone. specialize (Hnone (written e) p).
        rewrite Hw in Hnone. discriminate.
    + specialize (Hfull eq_refl). subst n. rewrite firstn_all.
      destruct (IH (mkEncoder (written e ++ p) (writer e)) H)
        as (k & err & Heq & Hk & Hall & Hfrom & Hnone).
      exists (length p + k)%nat, err. rewrite Heq. cbn [written writer].
      rewrite take_app_add. rewrite <- app_assoc.
      split; [reflexivity|]. split; [rewrite length_app; lia|].
      split; [intros He; rewrite length_app, (Hall He); reflexivity|].
      split; [exact Hfrom | exact Hnone].
Qed.

Lemma read_pairs_flatten (m : list (Z * mpvalue)) :
  read_pairs (length m) (flatten_entries m) = Some m.
Proof.
  induction m as [|[k v] m IH]; [reflexivity|].
  change (flatten_entries ((k, v) :: m)) with (Uint k :: v :: flatten_entries m).
  cbn [length read_pairs]. now rewrite IH.
Qed.

(** Reading back what the encoder writes. *)
Lemma take_be_be (n : nat) (v : Z) (rest : list Z) :
  take_be n (be n v ++ rest) = Some (v mod 256 ^ Z.of_nat n, rest).
Proof.
  induction n as [|n IH].
  - cbn. now rewrite Z.mod_1_r.
  - cbn [be take_be app]. rewrite IH. f_equal. f_equal.
    rewrite Z.shiftr_div_pow2 by lia.
    replace (2 ^ (8 * Z.of_nat n)) with (256 ^ Z.of_nat n)
      by (change 256 with (2 ^ 8); rewrite <- Z.pow_mul_r by lia; reflexivity).
    rewrite Nat2Z.inj_succ, Z.pow_succ_r by lia.
    rewrite (Z.mul_comm 256).
    rewrite Z.rem_mul_r by lia. lia.
Qed.

Lemma read_value_Uint (v : Z) (rest : list Z) :
  read_value (bytes_Uint v ++ rest) = Some (WUint (v mod 2 ^ 64), rest).
Proof.
  unfold bytes_Uint. cbv zeta.
  pose proof (Z.mod_pos_bound v (2 ^ 64) ltac:(lia)) as Hb.
  set (u := v mod 2 ^ 64) in *.
  destruct (Z.leb_spec u 127).
  { cbn [app read_value].
    rewrite (proj2 (Z.leb_le 0 u)) by lia.
    rewrite (proj2 (Z.leb_le u 127)) by lia. reflexivity. }
  destruct (Z.leb_spec u 255).
  { change (read_value ((msgpcode.Uint8 :: be 1 u) ++ rest))
      with (read_uint 1 (be 1 u ++ rest)).
    unfold read_uint. rewrite take_be_be.
    rewrite Z.mod_small by (cbn; lia). reflexivity. }
  destruct (Z.leb_spec u 65535).
  { change (read_value ((msgpcode.Uint16 :: be 2 u) ++ rest))
      with (read_uint 2 (be 2 u ++ rest)).
    unfold read_uint. rewrite take_be_be.
    rewrite Z.mod_small by (cbn; lia). reflexivity. }
  destruct (Z.leb_spec u 4294967295).
  { change (read_value ((msgpcode.Uint32 :: be 4 u) ++ rest))
      with (read_uint 4 (be 4 u ++ rest)).
    unfold read_uint. rewrite take_be_be.
    rewrite Z.mod_small by (cbn; lia). reflexivity. }
  change (read_value ((msgpcode.Uint64 :: be 8 u) ++ rest))
    with (read_uint 8 (be 8 u ++ rest)).
  unfold read_uint. rewrite take_be_be.
  rewrite Z.mod_small by (cbn; lia). reflexivity.
Qed.

Lemma read_value_Float64 (f : float) (rest : list Z) :
  read_value (bytes_Float64 f ++ rest) =
  Some (WDouble (Float64bits f mod 2 ^ 64), rest).
Proof.
  unfold bytes_Float64.
  change (read_value ((msgpcode.Double :: be 8 (Float64bits f)) ++ rest))
    with (match take_be 8 (be 8 (Float64bits f) ++ rest) with
          | Some (x, r) => Some (WDouble x, r)
          | None => None
          end).
  rewrite take_be_be. reflexivity.
Qed.

Lemma read_value_Uint_end (v : Z) :
  read_value (bytes_Uint v) = Some (WUint (v mod 2 ^ 64), []).
Proof. rewrite <- (app_nil_r (bytes_Uint v)). apply read_value_Uint. Qed.

Lemma read_value_Float64_end (f : float) :
  read_value (bytes_Float64 f) = Some (WDouble (Float64bits f mod 2 ^ 64), []).
Proof. rewrite <- (app_nil_r (bytes_Float64 f)). apply read_value_Float64. Qed.

Section BeginBody.
Variables KeyTimeout KeyTxnIsolation : Z.

(** [fillBegin] hands the writer the values of the body one by one. *)
Lemma fillBegin_write_all (i t : Z) (e : encoder) :
  fillBegin KeyTimeout KeyTxnIsolation i t e =
  write_all (map encode (begin_values KeyTimeout KeyTxnIsolation i t)) e.
Proof.
  unfold fillBegin, begin_values, begin_entries, EncodeMapLen, encodeUint,
    EncodeFloat64.
  destruct (0 <? t), (i =? DefaultIsolationLevel);
    cbn [app length flatten_entries flat_map fst snd write_all map encode];
    repeat match goal with
           | |- context [bytes_MapLen ?n] =>
               progress (let n' := eval vm_compute in n in change n with n')
           end;
    unfold andThen, skip; cbn [negb]; cbv beta iota zeta;
    repeat match goal with
           | |- context [write ?v ?x] =>
               destruct (write v x) as [? [?|]]; cbv beta iota zeta
           end; reflexivity.
Qed.

(** With a writer that takes everything, [fillBegin] returns no error
    and appends the bytes of the header and of the entries. *)
Lemma fillBegin_writes (i t : Z) (e : encoder) :
  accepting e ->
  fillBegin KeyTimeout KeyTxnIsolation i t e =
  (mkEncoder
     (written e ++ begin_bytes KeyTimeout KeyTxnIsolation i t)
     (writer e), None).
Proof.
  intros Hok. rewrite fillBegin_write_all, write_all_accepts by exact Hok.
  unfold begin_bytes. now rewrite flat_map_concat_map.
Qed.

Lemma begin_entries_length (i t : Z) :
  Z.of_nat (length (begin_entries KeyTimeout KeyTxnIsolation i t)) =
  (if 0 <? t then 1 else 0) +
  (if i =? DefaultIsolationLevel then 0 else 1).
Proof.
  unfold begin_entries.
  destruct (0 <? t), (i =? DefaultIsolationLevel); reflexivity.
Qed.

(** The bytes of a Begin body read back as its entries. *)
Lemma read_body_begin (i t : Z) :
  is_uint64 KeyTimeout -> is_uint64 KeyTxnIsolation -> is_uint64 i ->
  read_body (begin_bytes KeyTimeout KeyTxnIsolation i t) =
  Some (begin_wire KeyTimeout KeyTxnIsolation i t).
Proof.
  unfold is_uint64. intros H1 H2 Hi.
  unfold begin_bytes, begin_values, begin_entries, begin_wire, read_body.
  destruct (0 <? t), (i =? DefaultIsolationLevel);
    cbn [app length flatten_entries flat_map fst snd encode];
    repeat match goal with
           | |- context [bytes_MapLen ?n] =>
               progress (let n' := eval vm_compute in (bytes_MapLen n) in
                         change (bytes_MapLen n) with n')
           end;
    cbn [app]; rewrite ?app_nil_r;
    match goal with
    | |- context [read_value (?b :: ?l)] =>
        let n := eval vm_compute in (b - 0x80) in
        change (read_value (b :: l)) with (Some (WMapLen n, l))
    end;
    cbv beta iota;
    change (Z.to_nat 0) with 0%nat; change (Z.to_nat 1) with 1%nat;
    change (Z.to_nat 2) with 2%nat;
    repeat (cbn [read_entries];
            first [ rewrite read_value_Uint | rewrite read_value_Float64
                  | rewrite read_value_Uint_end
                  | rewrite read_value_Float64_end ];
            cbv beta iota);
    cbn [read_entries];
    rewrite ?(Z.mod_small KeyTimeout) by lia;
    rewrite ?(Z.mod_small KeyTxnIsolation) by lia;
    rewrite ?(Z.mod_small i) by lia; reflexivity.
Qed.

(** C2: for every isolation level [i] and timeout [t], over every
    encoder whose writer takes what it is handed, [fillBegin] returns no
    error and appends to what was written before the bytes of a map of 0,
    1 or 2 entries: a one-byte header [0x80 + n], the timeout key iff
    [t > 0], with the seconds as a float64, and the isolation key iff [i]
    is not the default level, with [i] as an unsigned integer; the bytes
    read back as these entries. *)
Theorem fillBegin_body (i t : Z) (e : encoder) :
  KeyTimeout <> KeyTxnIsolation ->
  is_uint64 KeyTimeout -> is_uint64 KeyTxnIsolation -> is_uint64 i ->
  accepting e ->
  exists m : list (Z * mpvalue),
    fillBegin KeyTimeout KeyTxnIsolation i t e =
      (mkEncoder
         (written e ++
          flat_map encode (MapLen (Z.of_nat (length m)) :: flatten_entries m))
         (writer e), None) /\
    encode (MapLen (Z.of_nat (length m))) = [0x80 + Z.of_nat (length m)] /\
    read_body
      (flat_map encode (MapLen (Z.of_nat (length m)) :: flatten_entries m)) =
      Some (begin_wire KeyTimeout KeyTxnIsolation i t) /\
    read_map (MapLen (Z.of_nat (length m)) :: flatten_entries m) = Some m /\
    Z.of_nat (length m) =
      (if 0 <? t then 1 else 0) +
      (if i =? DefaultIsolationLevel then 0 else 1) /\
    (length m <= 2)%nat /\
    (has_key KeyTimeout m = true <-> 0 < t) /\
    (0 < t -> m !! 0%nat = Some (KeyTimeout, Float64 (Seconds t))) /\
    (has_key KeyTxnIsolation m = true <-> i <> DefaultIsolationLevel) /\
    (i <> DefaultIsolationLevel -> last m = Some (KeyTxnIsolation, Uint i)).
Proof.
  intros Hne H1 H2 Hi Hok.
  exists (begin_entries KeyTimeout KeyTxnIsolation i t).
  split; [apply fillBegin_writes; exact Hok|].
  split.
  { unfold begin_entries.
    destruct (0 <? t), (i =? DefaultIsolationLevel); reflexivity. }
  split; [apply read_body_begin; assumption|].
  split.
  { unfold read_map. rewrite (proj2 (Z.leb_le 0 _)) by lia.
    rewrite Nat2Z.id. apply read_pairs_flatten. }
  split; [apply begin_entries_length|].
  unfold begin_entries, has_key, DefaultIsolationLevel.
  destruct (Z.ltb_spec 0 t), (Z.eqb_spec i 0); simpl;
    rewrite ?orb_false_r;
    repeat split; intros; try reflexivity; try lia; try discriminate;
    try congruence;
    try (apply Z.eqb_eq; reflexivity);
    repeat match goal with
           | H : (_ =? _) = true |- _ => apply Z.eqb_eq in H
           | H : _ || _ = true |- _ => apply orb_true_iff in H; destruct H
           end; try congruence; try lia.
Qed.

(** Commit and Rollback append an empty map to whatever came before. *)
Lemma fillCommit_body (e : encoder) :
  accepting e ->
  fillCommit e = (mkEncoder (written e ++ [0x80]) (writer e), None).
Proof. intros H. unfold fillCommit, EncodeMapLen. now rewrite write_accepts. Qed.
Lemma fillRollback_body (e : encoder) :
  accepting e ->
  fillRollback e = (mkEncoder (written e ++ [0x80]) (writer e), None).
Proof. intros H. unfold fillRollback, EncodeMapLen. now rewrite write_accepts. Qed.
End BeginBody.

(** The body of C2 at the keys of the protocol (0x56 and 0x59), the
    read-committed level and a timeout of one and a half seconds, behind
    a body that the buffer holds already. *)
Lemma fillBegin_body_witness :
  0x56 <> 0x59 /\ is_uint64 0x56 /\ is_uint64 0x59 /\
  is_uint64 ReadCommittedLevel /\ accepting used_buffer /\
  exists m : list (Z * mpvalue),
    fillBegin 0x56 0x59 ReadCommittedLevel 1500000000 used_buffer =
      (mkEncoder
         (written used_buffer ++
          flat_map encode (MapLen (Z.of_nat (length m)) :: flatten_entries m))
         (writer used_buffer), None) /\
    encode (MapLen (Z.of_nat (length m))) = [0x80 + Z.of_nat (length m)] /\
    read_body
      (flat_map encode (MapLen (Z.of_nat (length m)) :: flatten_entries m)) =
      Some (begin_wire 0x56 0x59 ReadCommittedLevel 1500000000) /\
    read_map (MapLen (Z.of_nat (length m)) :: flatten_entries m) = Some m /\
    Z.of_nat (length m) =
      (if 0 <? 1500000000 then 1 else 0) +
      (if ReadCommittedLevel =? DefaultIsolationLevel then 0 else 1) /\
    (length m <= 2)%nat /\
    (has_key 0x56 m = true <-> 0 < 1500000000) /\
    (0 < 1500000000 -> m !! 0%nat = Some (0x56, Float64 (Seconds 1500000000))) /\
    (has_key 0x59 m = true <-> ReadCommittedLevel <> DefaultIsolationLevel) /\
    (ReadCommittedLevel <> DefaultIsolationLevel ->
     last m = Some (0x59, Uint ReadCommittedLevel)).
Proof.
  assert (Hk : 0x56 <> 0x59) by lia.
  assert (H1 : is_uint64 0x56) by (unfold is_uint64; lia).
  assert (H2 : is_uint64 0x59) by (unfold is_uint64; lia).
  assert (Hi : is_uint64 ReadCommittedLevel)
    by (unfold is_uint64, ReadCommittedLevel; lia).
  assert (Hok : accepting used_buffer) by (intros taken p; reflexivity).
  repeat (split; [assumption|]).
  exact (fillBegin_body 0x56 0x59 ReadCommittedLevel 1500000000 used_buffer
           Hk H1 H2 Hi Hok).
Defined.

(** The three bodies of the specification's table, and the bit
    patterns of some seconds. *)
Example fillBegin_table :
  written (fst (fillBegin 0x56 0x59 DefaultIsolationLevel 0 buffer)) = [0x80] /\
  written (fst (fillBegin 0x56 0x59 ReadConfirmedLevel 0 buffer)) =
    [0x81; 0x59; 0x02] /\
  written (fst (fillBegin 0x56 0x59 DefaultIsolationLevel (2 * Second) buffer)) =
    [0x81; 0x56; 0xcb; 0x40; 0; 0; 0; 0; 0; 0; 0] /\
  written (fst (fillBegin 0x56 0x59 BestEffortLevel (Second / 10) buffer)) =
    [0x82; 0x56; 0xcb; 0x3f; 0xb9; 0x99; 0x99; 0x99; 0x99; 0x99; 0x9a;
     0x59; 0x03].
Proof. repeat split; vm_compute; reflexivity. Qed.

Example Float64bits_samples :
  Float64bits 1.5 = 0x3ff8000000000000 /\
  Float64bits (-2.5) = 0xc004000000000000 /\
  Float64bits 0x1.999999999999ap-4 = 0x3fb999999999999a /\
  Float64bits 0 = 0.
Proof. repeat split; vm_compute; reflexivity. Qed.

Example fillBegin_example :
  written (fst (fillBegin 0x56 0x59 ReadCommittedLevel 1500000000 used_buffer)) =
  [0x80; 0x82; 0x56; 0xcb; 0x3f; 0xf8; 0; 0; 0; 0; 0; 0; 0x59; 0x01].
Proof. vm_compute. reflexivity. Qed.

(* --------------------------------------------------------------------- *)
(** ** Stream.Do *)

(** C8: a request bound to another connection than the stream's gets the
    binding-mismatch error and the world is left as it was (no call goes
    out); any other request is handed to [send] of the stream's connection
    with the stream's id, and that is the one interaction recorded. *)
Theorem Stream_Do_binding (w : World) (s : Stream) (r : Request) :
  (forall rc : option ptr,
     reqConn r = Some rc -> rc <> Conn s ->
     Stream_Do w s r = Done (w, FutError binding_mismatch)) /\
  (forall c : ptr,
     Conn s = Some c ->
     reqConn r = None \/ reqConn r = Some (Conn s) ->
     Stream_Do w s r = Done (Connection_send w c r (Id s)) /\
     trace (fst (Connection_send w c r (Id s))) =
       (trace w ++ [EvSend c r (Id s)])%list /\
     snd (Connection_send w c r (Id s)) = FutSent (EvSend c r (Id s))).
Proof.
  split.
  - intros rc Hr Hne. unfold Stream_Do. rewrite Hr.
    destruct (decide (rc <> Conn s)); [reflexivity | contradiction].
  - intros c Hc Hr. split; [|split; reflexivity].
    unfold Stream_Do. rewrite Hc.
    destruct Hr as [Hr | Hr]; rewrite Hr; [reflexivity|].
    rewrite Hc.
    destruct (decide (Some c <> Some c)) as [Hne | _]; [congruence | reflexivity].
Qed.

Lemma Stream_Do_binding_witness :
  Stream_Do twins stream7 (bound_to 1%nat) =
    Done (twins, FutError binding_mismatch) /\
  Stream_Do twins stream7 (bound_to 0%nat) =
    Done (Connection_send twins 0%nat (bound_to 0%nat) 7).
Proof.
  destruct (Stream_Do_binding twins stream7 (bound_to 1%nat)) as [H1 _].
  destruct (Stream_Do_binding twins stream7 (bound_to 0%nat)) as [_ H2].
  split.
  - apply (H1 (Some 1%nat)); [reflexivity | discriminate].
  - apply (H2 0%nat); [reflexivity | right; reflexivity].
Defined.

(* --------------------------------------------------------------------- *)
(** ** getCurrentConnection *)

Lemma currentLoop_selects (w : World) (m : gmap string ptr) (l : list string) :
  forall fb : option ptr,
    match List.find (ConnectedNow w) (omap (fun a => m !! a) l) with
    | Some c => snd (currentLoop w m l fb) = Some c
    | None =>
        let fb' := match last (omap (fun a => m !! a) l) with
                   | Some c => Some c
                   | None => fb
                   end in
        currentLoop w m l fb = (fb', fb')
    end.
Proof.
  induction l as [|a l IH]; intros fb; [reflexivity|].
  cbn [currentLoop omap list_omap].
  destruct (m !! a) as [conn|] eqn:Ha; [|apply IH].
  cbn [List.find].
  destruct (ConnectedNow w conn) eqn:Hc; [reflexivity|].
  specialize (IH (Some conn)).
  destruct (List.find (ConnectedNow w) (omap (fun a => m !! a) l)); [exact IH|].
  rewrite IH. cbn zeta. rewrite last_cons.
  destruct (last (omap (fun a => m !! a) l)); reflexivity.
Qed.

(** C4: the selection leaves the tracked addresses, the pool map and the
    state alone and dials nothing (it only reads the world); it returns the
    first entry, in the order of the tracked addresses, that reports
    connected-now; when there is none it sets the fallback to the last
    entry it inspected and returns the fallback. *)
Theorem getCurrentConnection_selects (w : World) (cm : ConnectionMulti) :
  let cm' := fst (getCurrentConnection w cm) in
  let cur := snd (getCurrentConnection w cm) in
  addrs cm' = addrs cm /\ pool cm' = pool cm /\ state cm' = state cm /\
  control cm' = control cm /\
  match first_connected w cm with
  | Some c => cur = Some c /\ ConnectedNow w c = true /\ tracked cm c
  | None => fallback cm' = last_inspected cm /\ cur = fallback cm'
  end.
Proof.
  unfold getCurrentConnection, first_connected, last_inspected, entries.
  pose proof (currentLoop_selects w (pool cm) (addrs cm) (fallback cm)) as H.
  destruct (currentLoop w (pool cm) (addrs cm) (fallback cm)) as [fb cur] eqn:E.
  cbn [fst snd set_fallback addrs pool state control fallback].
  repeat (split; [reflexivity|]).
  destruct (List.find _ _) as [c|] eqn:F.
  - split; [exact H|].
    apply List.find_some in F as [Hin Hc]. split; [exact Hc|].
    apply list_elem_of_In, list_elem_of_omap in Hin as (a & _ & Ha).
    now exists a.
  - cbn zeta in H. injection H as -> ->. split; reflexivity.
Qed.

(* --------------------------------------------------------------------- *)
(** ** Close, twice *)

(** C10: once [Close] has returned, the control channel is closed, and
    a second [Close] panics on closing it again, whatever the world and
    the order of the map are by then. *)
Theorem Close_twice_panics
  (range_of : gmap string ptr -> list (string * ptr))
  (w w1 : World) (cm cm1 : ConnectionMulti) (e1 : option error) :
  Close range_of w cm = Done (w1, cm1, e1) ->
  forall (range_of2 : gmap string ptr -> list (string * ptr)) (w2 : World),
    Close range_of2 w2 cm1 = Panic close_of_closed_channel.
Proof.
  unfold Close. intros H range_of2 w2.
  destruct (control cm); [discriminate|].
  destruct (closeEach _ _ _) as [w' err].
  injection H as _ <- _. reflexivity.
Qed.

Lemma Close_twice_panics_witness :
  let w1 := fst (Connection_Close (fst (Connection_Close twins 0%nat)) 0%nat) in
  Close map_to_list twins pool_a = Done (w1, set_closed pool_a, None) /\
  Close map_to_list w1 (set_closed pool_a) = Panic close_of_closed_channel.
Proof.
  intros w1.
  assert (H : Close map_to_list twins pool_a = Done (w1, set_closed pool_a, None))
    by (vm_compute; reflexivity).
  split; [exact H|].
  exact (Close_twice_panics map_to_list twins w1 pool_a (set_closed pool_a)
           None H map_to_list w1).
Defined.

(* --------------------------------------------------------------------- *)
(** ** ConnectionMulti.Do *)

(** A bound request goes by the address of its connection: it is handed
    to that connection when the pool map has an entry under the address,
    whichever connection the entry is, and refused without any call
    otherwise. *)
Lemma Do_bound_by_address (w : World) (cm : ConnectionMulti) (req : Request)
  (c : ptr) :
  reqConn req = Some (Some c) ->
  Do w cm req =
  match pool cm !! Connection_Addr w c with
  | Some _ => Done (record (EvDo c req) w, cm, FutSent (EvDo c req))
  | None => Done (w, cm, FutError binding_mismatch)
  end.
Proof.
  intros H. unfold Do, getConnectionFromPool. rewrite H. cbn [deref obind].
  destruct (pool cm !! Connection_Addr w c); reflexivity.
Qed.

(** C1: the claim wants a request that is bound to a connection outside
    the pool refused, also when the connection shares its address with an
    entry.  Connection 1 below is not an entry of the pool (the entry for
    its address is connection 0), and [Do] hands the request to it: the
    call goes out on connection 1 and no error is reported. *)
Theorem Do_routes_untracked_twin :
  ~ tracked pool_a 1%nat /\
  pool pool_a !! Connection_Addr twins 1%nat = Some 0%nat /\
  Do twins pool_a (bound_to 1%nat) =
    Done (record (EvDo 1%nat (bound_to 1%nat)) twins, pool_a,
          FutSent (EvDo 1%nat (bound_to 1%nat))).
Proof.
  split; [|split; vm_compute; reflexivity].
  intros [a Ha]. cbn [pool_a pool] in Ha.
  apply lookup_singleton_Some in Ha as [_ Ha]. discriminate.
Qed.

(* --------------------------------------------------------------------- *)
(** ** ConnectWithOpts: the configuration checks *)

Lemma warmUp_loop_control (l : list string) :
  forall (i : nat) (w : World) (cm : ConnectionMulti) (alive : bool)
         (errs : list (option error)),
    control (snd (fst (fst (warmUp_loop i l w cm alive errs)))) = control cm.
Proof.
  induction l as [|a l IH]; intros i w cm alive errs; [reflexivity|].
  cbn [warmUp_loop]. destruct (Tarantool.Connect w a) as [[w1 conn] err].
  destruct conn as [c|], err as [e|]; rewrite IH; try reflexivity.
  destruct (fallback cm); reflexivity.
Qed.

Lemma Close_returns (range_of : gmap string ptr -> list (string * ptr))
  (w : World) (cm : ConnectionMulti) :
  control cm = false ->
  exists (w' : World) (err : option error),
    Close range_of w cm = Done (w', set_closed cm, err).
Proof.
  intros H. unfold Close. rewrite H.
  destruct (closeEach _ _ _) as [w1 err]. eauto.
Qed.

(** C7: the constructor answers one of the two configuration errors
    exactly when the list of addresses is empty or the check timeout is
    not positive; it then returns no pool and the world is the one it was
    given (nothing dialled, nothing on the heap), and the empty list is
    reported first. *)
Theorem ConnectWithOpts_config
  (range_of : gmap string ptr -> list (string * ptr))
  (w : World) (addrs0 : list string) (opts0 : OptsMulti) :
  exists (w' : World) (cm : option ConnectionMulti) (err : option error),
    ConnectWithOpts range_of w addrs0 opts0 = Done (w', cm, err) /\
    (ConfigError err <-> addrs0 = [] \/ CheckTimeout opts0 <= 0) /\
    (ConfigError err -> w' = w /\ cm = None) /\
    (addrs0 = [] -> err = Some ErrEmptyAddrs) /\
    (addrs0 <> [] -> CheckTimeout opts0 <= 0 ->
     err = Some ErrWrongCheckTimeout).
Proof.
  unfold ConnectWithOpts, ConfigError.
  destruct addrs0 as [|a0 rest].
  { exists w, None, (Some ErrEmptyAddrs). cbn. intuition congruence. }
  cbn [length Nat.eqb].
  destruct (Z.leb_spec (CheckTimeout opts0) 0) as [Hle | Hgt].
  { exists w, None, (Some ErrWrongCheckTimeout). intuition congruence. }
  set (cm0 := mkConnectionMulti _ _ _ _ _ _ _).
  pose proof (warmUp_loop_control (addrs cm0) 0 w cm0 false
                (replicate (length (addrs cm0)) None)) as Hctl.
  unfold warmUp.
  destruct (warmUp_loop _ _ _ _ _ _) as [[[w1 cm1] alive] errs].
  cbn [fst snd] in Hctl.
  destruct alive; cbn [negb].
  - exists w1, (Some (set_checking cm1)), None.
    split; [reflexivity|]. repeat split; intros; try discriminate;
      try lia; intuition (try discriminate; try lia).
  - destruct (Close_returns range_of w1 cm1 Hctl) as (w2 & e & ->).
    cbn [obind fst].
    exists w2, None, (Some ErrNoConnection).
    split; [reflexivity|]. repeat split; intros; try discriminate;
      try lia; intuition (try discriminate; try lia).
Qed.

(* --------------------------------------------------------------------- *)
(** ** The heap under Close and Connect *)

Lemma Close_heap_length (w : World) (c : ptr) :
  length (heap (fst (Connection_Close w c))) = length (heap w).
Proof.
  unfold Connection_Close. cbn [fst heap record mark]. apply length_alter.
Qed.

Lemma Close_closes (w : World) (c : ptr) :
  (c < length (heap w))%nat -> ClosedNow (fst (Connection_Close w c)) c = true.
Proof.
  intros H. unfold ClosedNow, Connection_Close.
  cbn [fst heap record mark]. rewrite list_lookup_alter_eq.
  destruct (lookup_lt_is_Some_2 _ _ H) as [o ->]. reflexivity.
Qed.

Lemma Close_keeps_closed (w : World) (c p : ptr) :
  ClosedNow w p = true -> ClosedNow (fst (Connection_Close w c)) p = true.
Proof.
  unfold ClosedNow, Connection_Close. cbn [fst heap record mark]. intros H.
  destruct (decide (c = p)) as [-> | Hne].
  - rewrite list_lookup_alter_eq.
    destruct (heap w !! p); [reflexivity | discriminate].
  - rewrite list_lookup_alter_ne by assumption. exact H.
Qed.

Lemma Close_other (w : World) (c p : ptr) :
  c <> p -> heap (fst (Connection_Close w c)) !! p = heap w !! p.
Proof.
  intros H. unfold Connection_Close. cbn [fst heap record mark].
  now apply list_lookup_alter_ne.
Qed.

(* --------------------------------------------------------------------- *)
(** ** Close *)

Lemma closing_app (l1 l2 : list ptr) :
  forall w : World,
    closing (l1 ++ l2) w =
    (fst (closing l2 (fst (closing l1 w))),
     (snd (closing l1 w) ++ snd (closing l2 (fst (closing l1 w))))%list).
Proof.
  induction l1 as [|c l1 IH]; intros w.
  - cbn. now destruct (closing l2 w).
  - cbn [app closing]. destruct (Connection_Close w c) as [w1 e].
    rewrite IH. destruct (closing l1 w1) as [w2 es]. reflexivity.
Qed.

Lemma closing_trace (l : list ptr) :
  forall w : World,
    trace (fst (closing l w)) = (trace w ++ map EvClose l)%list.
Proof.
  induction l as [|c l IH]; intros w.
  - cbn. now rewrite app_nil_r.
  - cbn [closing]. destruct (Connection_Close w c) as [w1 e] eqn:E.
    specialize (IH w1). destruct (closing l w1) as [w2 es]. cbn [fst] in *.
    rewrite IH. replace w1 with (fst (Connection_Close w c)) by now rewrite E.
    cbn. now rewrite <- app_assoc.
Qed.

Lemma closing_heap_length (l : list ptr) :
  forall w : World, length (heap (fst (closing l w))) = length (heap w).
Proof.
  induction l as [|c l IH]; intros w; [reflexivity|].
  cbn [closing]. destruct (Connection_Close w c) as [w1 e] eqn:E.
  specialize (IH w1). destruct (closing l w1) as [w2 es]. cbn [fst] in *.
  rewrite IH. replace w1 with (fst (Connection_Close w c)) by now rewrite E.
  apply Close_heap_length.
Qed.

Lemma closing_keeps_closed (l : list ptr) (p : ptr) :
  forall w : World,
    ClosedNow w p = true -> ClosedNow (fst (closing l w)) p = true.
Proof.
  induction l as [|c l IH]; intros w H; [exact H|].
  cbn [closing]. destruct (Connection_Close w c) as [w1 e] eqn:E.
  specialize (IH w1). destruct (closing l w1) as [w2 es]. cbn [fst] in *.
  apply IH. replace w1 with (fst (Connection_Close w c)) by now rewrite E.
  now apply Close_keeps_closed.
Qed.

Lemma closing_closes (l : list ptr) (p : ptr) :
  forall w : World,
    In p l -> (p < length (heap w))%nat ->
    ClosedNow (fst (closing l w)) p = true.
Proof.
  induction l as [|c l IH]; intros w Hin Hlt; [destruct Hin|].
  cbn [closing]. destruct (Connection_Close w c) as [w1 e] eqn:E.
  assert (Hw1 : w1 = fst (Connection_Close w c)) by now rewrite E.
  pose proof (closing_keeps_closed l p w1) as Hkeep.
  specialize (IH w1). destruct (closing l w1) as [w2 es]. cbn [fst] in *.
  destruct (decide (c = p)) as [-> | Hne].
  - apply Hkeep. rewrite Hw1. now apply Close_closes.
  - destruct Hin as [-> | Hin]; [contradiction|].
    apply IH; [exact Hin|]. rewrite Hw1, Close_heap_length. exact Hlt.
Qed.

Lemma closeEach_closing (l : list ptr) :
  forall (w : World) (err : option error),
    closeEach l w err =
    (fst (closing l w),
     match err with
     | Some e => Some e
     | None => first_error (snd (closing l w))
     end).
Proof.
  induction l as [|c l IH]; intros w err.
  - cbn. now destruct err.
  - cbn [closeEach closing]. destruct (Connection_Close w c) as [w1 e].
    rewrite IH. destruct (closing l w1) as [w2 es]. cbn [fst snd].
    destruct err; [reflexivity|]. destruct e; reflexivity.
Qed.

Lemma first_error_None (es : list (option error)) :
  first_error es = None <-> Forall (eq None) es.
Proof.
  induction es as [|[e|] es IH]; cbn.
  - split; [constructor | reflexivity].
  - split; [discriminate | intros H; inversion H; discriminate].
  - rewrite IH. split; [now constructor | intros H; now inversion H].
Qed.

Lemma tracked_in_range (range_of : gmap string ptr -> list (string * ptr))
  (cm : ConnectionMulti) (c : ptr) :
  range_of (pool cm) ≡ₚ map_to_list (pool cm) ->
  tracked cm c <-> In c (map snd (range_of (pool cm))).
Proof.
  intros Hperm. unfold tracked. rewrite in_map_iff. split.
  - intros [a Ha]. exists (a, c). split; [reflexivity|].
    apply list_elem_of_In. rewrite Hperm. now apply elem_of_map_to_list.
  - intros [[a c'] [Hc Hin]]. cbn in Hc. subst c'. exists a.
    apply list_elem_of_In in Hin. rewrite Hperm in Hin.
    now apply elem_of_map_to_list in Hin.
Qed.

(** What the first [Close] returns. *)
Lemma Close_done (range_of : gmap string ptr -> list (string * ptr))
  (w : World) (cm : ConnectionMulti) :
  control cm = false ->
  Close range_of w cm =
  Done (fst (closing (map snd (range_of (pool cm)) ++ option_list (fallback cm)) w),
        set_closed cm,
        first_error (snd (closing (map snd (range_of (pool cm))) w))).
Proof.
  intros Hctl. unfold Close. rewrite Hctl.
  cbn [set_closed pool fallback].
  rewrite closeEach_closing, closing_app. cbn [fst].
  destruct (fallback cm) as [f|]; reflexivity.
Qed.

(** C5, as the code has it: the first [Close] marks the state closed and
    closes the control channel, closes every connection of the pool map in
    the order the map yields them and then the fallback, going on after a
    failed close; it returns the first error among the closes of the pool
    map's connections, and what closing the fallback answers is dropped. *)
Theorem Close_closes_all
  (range_of : gmap string ptr -> list (string * ptr))
  (w : World) (cm : ConnectionMulti) :
  control cm = false ->
  range_of (pool cm) ≡ₚ map_to_list (pool cm) ->
  let conns := map snd (range_of (pool cm)) in
  let owned := (conns ++ option_list (fallback cm))%list in
  let w' := fst (closing owned w) in
  let answers := snd (closing conns w) in
  Close range_of w cm = Done (w', set_closed cm, first_error answers) /\
  state (set_closed cm) = connClosed /\
  control (set_closed cm) = true /\
  trace w' = (trace w ++ map EvClose owned)%list /\
  (forall c : ptr, tracked cm c \/ fallback cm = Some c -> In c owned) /\
  (forall c : ptr, In c owned -> (c < length (heap w))%nat ->
                   ClosedNow w' c = true) /\
  (first_error answers = None <-> Forall (eq None) answers).
Proof.
  intros Hctl Hperm conns owned w' answers.
  split; [|split; [reflexivity|split; [reflexivity|split; [|split; [|split]]]]].
  - now apply Close_done.
  - apply closing_trace.
  - intros c [Ht | Hf]; apply in_or_app.
    + left. now apply tracked_in_range.
    + right. rewrite Hf. now left.
  - intros c Hin Hlt. now apply closing_closes.
  - apply first_error_None.
Qed.

Lemma Close_closes_all_witness :
  control pool_a = false /\
  Close map_to_list twins pool_a =
    Done (fst (closing [0%nat; 0%nat] twins), set_closed pool_a, None).
Proof.
  split; [reflexivity|].
  exact (proj1 (Close_closes_all map_to_list twins pool_a eq_refl
                  (reflexivity _))).
Defined.

(** C5, as the claim has it, fails: the pool below is the one the
    constructor builds from an address given twice; connection 0 is its
    fallback and no entry of the map.  Closing connection 0 reports an
    error, and [Close] returns nil. *)
Lemma Close_drops_fallback_error :
  ConnectWithOpts map_to_list flaky ["a:3301"; "a:3301"] one_second =
    Done (doubled_world, Some doubled_pool, None) /\
  fallback doubled_pool = Some 0%nat /\
  snd (Connection_Close (fst (Connection_Close doubled_world 1%nat)) 0%nat) =
    Some "broken pipe" /\
  exists w' : World,
    Close map_to_list doubled_world doubled_pool =
      Done (w', set_closed doubled_pool, None).
Proof.
  split; [vm_compute; reflexivity|].
  split; [reflexivity|]. split; [reflexivity|].
  eexists. vm_compute. reflexivity.
Qed.

(* --------------------------------------------------------------------- *)
(** ** ConnectWithOpts when nothing answers *)

Lemma Connect_answers (w : World) (a : string) :
  (exists e : error,
     dialer w (now w) a = DialError e /\
     Tarantool.Connect w a = (record (EvDial a) w, None, Some e)) \/
  (exists live : bool,
     dialer w (now w) a = DialConn live /\
     Tarantool.Connect w a =
       (record (EvDial a)
          (allocate (mkConnection a (if live then Connected else Connecting)) w),
        Some (length (heap w)), None)).
Proof.
  unfold Tarantool.Connect. destruct (dialer w (now w) a) as [e | live].
  - left. now exists e.
  - right. now exists live.
Qed.

(** The invariant of the warm-up loop on a network where no dial gives a
    live connection and over addresses that are pairwise different: nobody
    is alive, and every connection put on the heap since [base] is an
    entry of the pool map. *)
Lemma warmUp_loop_unreachable (base : nat) (l : list string) :
  forall (i : nat) (w : World) (cm : ConnectionMulti)
         (errs : list (option error)),
    NoDup l ->
    (forall a : string, a ∈ l -> pool cm !! a = None) ->
    (forall (t : nat) (a : string), dialer w t a <> DialConn true) ->
    (forall p : nat, (base <= p < length (heap w))%nat -> tracked cm p) ->
    let r := warmUp_loop i l w cm false errs in
    snd (fst r) = false /\
    control (snd (fst (fst r))) = control cm /\
    (length (heap w) <= length (heap (fst (fst (fst r)))))%nat /\
    (forall p : nat,
       (base <= p < length (heap (fst (fst (fst r)))))%nat ->
       tracked (snd (fst (fst r))) p).
Proof.
  induction l as [|a l IH]; intros i w cm errs Hnd Hfree Hdial Hinv.
  { cbn. auto. }
  apply NoDup_cons in Hnd as [Hnotin Hnd].
  cbn [warmUp_loop].
  destruct (Connect_answers w a) as [(e & _ & ->) | (live & Hans & ->)].
  - (* the dial fails *)
    specialize (IH (S i) (record (EvDial a) w) cm (<[i := Some e]> errs) Hnd).
    apply IH.
    + intros a' Ha'. apply Hfree. now right.
    + exact Hdial.
    + exact Hinv.
  - (* a connection comes back, not connected now *)
    destruct live; [exfalso; exact (Hdial _ _ Hans)|].
    set (c := length (heap w)).
    set (w1 := record (EvDial a) (allocate (mkConnection a Connecting) w)).
    assert (Hnow : ConnectedNow w1 c = false).
    { unfold ConnectedNow, w1, c. cbn [heap record allocate].
      rewrite lookup_app_r by lia. now rewrite Nat.sub_diag. }
    rewrite Hnow.
    set (cm1 := match fallback cm with
                | Some _ => cm
                | None => set_fallback (Some c) cm
                end).
    assert (Hpool1 : pool cm1 = pool cm) by (unfold cm1; now destruct (fallback cm)).
    assert (Hctl1 : control cm1 = control cm) by (unfold cm1; now destruct (fallback cm)).
    set (cm2 := set_pool (<[a := c]> (pool cm1)) cm1).
    specialize (IH (S i) w1 cm2 (<[i := None]> errs) Hnd).
    assert (Hlen : length (heap w1) = S (length (heap w))).
    { unfold w1. cbn [heap record allocate]. rewrite length_app. cbn. lia. }
    destruct IH as (Ha & Hc & Hl & Ht).
    + intros a' Ha'. cbn [cm2 set_pool pool]. rewrite Hpool1.
      rewrite lookup_insert_ne by (intros ->; contradiction).
      apply Hfree. now right.
    + exact Hdial.
    + intros p Hp. unfold tracked. cbn [cm2 set_pool pool]. rewrite Hpool1.
      destruct (decide (p = c)) as [-> | Hne].
      * exists a. apply lookup_insert_eq.
      * destruct (Hinv p) as [a' Ha']; [unfold c in Hne; lia|].
        exists a'. rewrite lookup_insert_ne; [exact Ha'|].
        intros <-. rewrite Hfree in Ha' by now left. discriminate.
    + repeat split; try assumption.
      * rewrite Hc. exact Hctl1.
      * lia.
Qed.

(** For a list of pairwise different addresses the constructor does what
    C6 says: when no dial gives a live connection it answers
    [ErrNoConnection], returns no pool, and every connection opened since
    the call is closed. *)
Lemma ConnectWithOpts_unreachable_distinct
  (range_of : gmap string ptr -> list (string * ptr))
  (w : World) (addrs0 : list string) (opts0 : OptsMulti) :
  addrs0 <> [] ->
  0 < CheckTimeout opts0 ->
  NoDup addrs0 ->
  (forall (t : nat) (a : string), dialer w t a <> DialConn true) ->
  (forall m : gmap string ptr, range_of m ≡ₚ map_to_list m) ->
  exists w' : World,
    ConnectWithOpts range_of w addrs0 opts0 =
      Done (w', None, Some ErrNoConnection) /\
    (length (heap w) <= length (heap w'))%nat /\
    forall p : nat,
      (length (heap w) <= p < length (heap w'))%nat -> ClosedNow w' p = true.
Proof.
  intros Hne Hct Hnd Hdial Hperm. unfold ConnectWithOpts.
  destruct addrs0 as [|a0 rest]; [contradiction|]. cbn [length Nat.eqb].
  destruct (Z.leb_spec (CheckTimeout opts0) 0) as [Hle | _]; [lia|].
  set (cm0 := mkConnectionMulti _ _ _ _ _ _ _).
  pose proof (warmUp_loop_unreachable (length (heap w)) (addrs cm0) 0 w cm0
                (replicate (length (addrs cm0)) None) Hnd) as Hinv.
  unfold warmUp.
  destruct (warmUp_loop _ _ _ _ _ _) as [[[w1 cm1] alive] errs].
  cbn [fst snd] in Hinv.
  destruct Hinv as (-> & Hctl & Hlen & Htr).
  { intros a _. apply lookup_empty. }
  { exact Hdial. }
  { intros p Hp. lia. }
  cbn [negb].
  rewrite (Close_done range_of w1 cm1 Hctl).
  cbn [obind fst].
  eexists. split; [reflexivity|].
  rewrite closing_heap_length. split; [exact Hlen|].
  intros p Hp. apply closing_closes; [|lia].
  apply in_or_app. left.
  apply (tracked_in_range range_of cm1 p (Hperm _)), Htr, Hp.
Qed.

(** C6: with an address given twice the second dial overwrites the map
    entry of the first, and [Close] never sees the first connection.
    On a network that hands out connections that are not connected yet,
    the constructor answers [ErrNoConnection] for ["a"; "b"; "b"] and
    leaves connection 1, the first one to "b", open. *)
Theorem ConnectWithOpts_leaves_overwritten_open :
  exists w' : World,
    ConnectWithOpts map_to_list reconnecting
      ["a:3301"; "b:3301"; "b:3301"] one_second =
      Done (w', None, Some ErrNoConnection) /\
    heap w' = [mkConnection "a:3301" Closed;
               mkConnection "b:3301" Connecting;
               mkConnection "b:3301" Closed] /\
    ClosedNow w' 1%nat = false /\
    trace w' = [EvDial "a:3301"; EvDial "b:3301"; EvDial "b:3301";
                EvClose 0%nat; EvClose 2%nat; EvClose 0%nat].
Proof.
  eexists. split; [vm_compute; reflexivity|].
  split; [reflexivity|]. split; reflexivity.
Qed.

(* --------------------------------------------------------------------- *)
(** ** The discovery tick *)

Lemma indexOf_from_absent (s : string) (l : list string) :
  forall i : Z, 0 <= i -> (indexOf_from i s l <? 0) = bool_decide (s ∉ l).
Proof.
  induction l as [|v l IH]; intros i Hi.
  - cbn. symmetry. apply bool_decide_eq_true. apply not_elem_of_nil.
  - cbn [indexOf_from]. destruct (String.eqb_spec s v) as [-> | Hne].
    + rewrite (proj2 (Z.ltb_ge i 0) Hi). symmetry.
      apply bool_decide_eq_false. intros H. apply H. now left.
    + rewrite IH by lia. apply bool_decide_ext.
      rewrite not_elem_of_cons. tauto.
Qed.

Lemma indexOf_absent (s : string) (l : list string) :
  (indexOf s l <? 0) = bool_decide (s ∉ l).
Proof. apply indexOf_from_absent. lia. Qed.

Lemma opened_earlier (w0 w1 w' : World) (cm' : ConnectionMulti) (a : string) :
  (length (heap w0) <= length (heap w1))%nat ->
  opened w1 w' cm' a -> opened w0 w' cm' a.
Proof.
  intros Hle (p & st & Hp & Hge & Hh & Hst).
  exists p, st. repeat split; try assumption. lia.
Qed.

Lemma fillPool_spec (tracked : list string) (l : list string) :
  forall (w : World) (cm : ConnectionMulti),
    let w2 := fst (fillPool tracked l w cm) in
    let cm2 := snd (fillPool tracked l w cm) in
    addrs cm2 = addrs cm /\
    dialer w2 = dialer w /\
    trace w2 =
      (trace w ++
       map EvDial (List.filter (fun v => bool_decide (v ∉ tracked)) l))%list /\
    (length (heap w) <= length (heap w2))%nat /\
    (forall p : nat, (p < length (heap w))%nat -> heap w2 !! p = heap w !! p) /\
    (forall a : string, a ∈ tracked \/ a ∉ l -> pool cm2 !! a = pool cm !! a) /\
    (forall a : string, pool cm2 !! a = pool cm !! a \/ opened w w2 cm2 a) /\
    (forall a : string, a ∈ l -> a ∉ tracked ->
       (forall t : nat, exists live : bool, dialer w t a = DialConn live) ->
       opened w w2 cm2 a).
Proof.
  induction l as [|v l IH]; intros w cm.
  { cbn. rewrite app_nil_r. repeat split; auto.
    intros a Ha. now apply elem_of_nil in Ha. }
  cbn [fillPool List.filter]. rewrite indexOf_absent.
  destruct (bool_decide (v ∉ tracked)) eqn:Hnew.
  2:{ (* [v] is tracked already *)
    apply bool_decide_eq_false in Hnew.
    destruct (IH w cm) as (H1 & H2 & H3 & H4 & H5 & H6 & H7 & H8).
    repeat split; try assumption.
    - intros a [Ha | Ha]; apply H6; [now left | right].
      intros Hin. apply Ha. now right.
    - intros a Ha Hnt. apply elem_of_cons in Ha as [-> | Ha]; [contradiction|].
      now apply H8. }
  apply bool_decide_eq_true in Hnew.
  destruct (Connect_answers w v) as [(e & Hans & ->) | (live & Hans & ->)].
  - (* the dial fails *)
    destruct (IH (record (EvDial v) w) cm) as (H1 & H2 & H3 & H4 & H5 & H6 & H7 & H8).
    repeat split; try assumption.
    + rewrite H3. cbn [trace record map]. now rewrite <- app_assoc.
    + intros a [Ha | Ha]; apply H6; [now left | right].
      intros Hin. apply Ha. now right.
    + intros a Ha Hnt Hall. apply elem_of_cons in Ha as [-> | Ha].
      * destruct (Hall (now w)) as [live Hl]. congruence.
      * now apply H8.
  - (* the dial gives a connection *)
    set (st := if live then Connected else Connecting).
    set (c := length (heap w)).
    set (w1 := record (EvDial v) (allocate (mkConnection v st) w)).
    set (cm1 := setConnectionToPool v c cm).
    destruct (IH w1 cm1) as (H1 & H2 & H3 & H4 & H5 & H6 & H7 & H8).
    set (w2 := fst (fillPool tracked l w1 cm1)) in *.
    set (cm2 := snd (fillPool tracked l w1 cm1)) in *.
    assert (Hlen1 : length (heap w1) = S (length (heap w))).
    { unfold w1. cbn [heap record allocate]. rewrite length_app. cbn. lia. }
    assert (Hc : heap w2 !! c = Some (mkConnection v st)).
    { rewrite H5 by (unfold c; lia). unfold w1, c. cbn [heap record allocate].
      rewrite lookup_app_r by lia. now rewrite Nat.sub_diag. }
    assert (Hst : st <> Closed) by (unfold st; now destruct live).
    assert (Hopen : pool cm2 !! v = Some c -> opened w w2 cm2 v).
    { intros Hp. exists c, st. repeat split; try assumption. unfold c. lia. }
    repeat split.
    + exact H1.
    + exact H2.
    + rewrite H3. unfold w1. cbn [trace record allocate map].
      now rewrite <- app_assoc.
    + lia.
    + intros p Hp. rewrite H5 by lia. unfold w1. cbn [heap record allocate].
      now apply lookup_app_l.
    + intros a Ha. rewrite H6.
      * unfold cm1, setConnectionToPool. cbn [pool set_pool].
        apply lookup_insert_ne. intros <-.
        destruct Ha as [Ha | Ha]; [contradiction|]. apply Ha. now left.
      * destruct Ha as [Ha | Ha]; [now left | right].
        intros Hin. apply Ha. now right.
    + intros a. destruct (H7 a) as [Hsame | Hop].
      * destruct (decide (a = v)) as [-> | Hne].
        -- right. apply Hopen. rewrite Hsame. unfold cm1, setConnectionToPool.
           cbn [pool set_pool]. apply lookup_insert_eq.
        -- left. rewrite Hsame. unfold cm1, setConnectionToPool.
           cbn [pool set_pool]. now apply lookup_insert_ne.
      * right. apply (opened_earlier w w1); [lia | exact Hop].
    + intros a Ha Hnt Hall.
      destruct (decide (a ∈ l)) as [Hin | Hnin].
      * apply (opened_earlier w w1); [lia|]. now apply H8.
      * apply elem_of_cons in Ha as [-> | Ha]; [|contradiction].
        apply Hopen. rewrite H6 by now right.
        unfold cm1, setConnectionToPool. cbn [pool set_pool].
        apply lookup_insert_eq.
Qed.

(** One more dial in front of a run of dials: a dial that fails, and a
    dial that gives a connection. *)
Lemma dialled_after_failure (w w1 w2 : World) (cm cm2 : ConnectionMulti)
  (t0 : nat) (v : string) (ds : list string) (a : string) (e : error) :
  dialer w1 = dialer w -> heap w1 = heap w ->
  dialer w t0 v = DialError e ->
  dialled w1 w2 cm cm2 (S t0) ds a ->
  dialled w w2 cm cm2 t0 (v :: ds) a.
Proof.
  intros Hd1 Hh1 Hans. unfold dialled. rewrite Hd1, Hh1.
  intros [[Hfail Hsame] | (k & lv & p & Hk & Hd & Hlater & Hp & Hge & Hh)].
  - left. split; [|exact Hsame].
    intros [|k] Hk; cbn in Hk.
    + injection Hk as <-. exists e. now rewrite Nat.add_0_r.
    + rewrite Nat.add_succ_r. now apply Hfail.
  - right. exists (S k), lv, p. repeat split; try assumption.
    + rewrite Nat.add_succ_r. exact Hd.
    + intros [|j] Hj Hjk; [lia|]. rewrite Nat.add_succ_r.
      apply Hlater; [lia | exact Hjk].
Qed.

Lemma dialled_after_success (w w1 w2 : World) (cm cm2 : ConnectionMulti)
  (t0 : nat) (v : string) (ds : list string) (a : string) (live : bool) :
  dialer w1 = dialer w -> (length (heap w) <= length (heap w1))%nat ->
  dialer w t0 v = DialConn live ->
  heap w2 !! length (heap w) =
    Some (mkConnection v (if live then Connected else Connecting)) ->
  dialled w1 w2 (setConnectionToPool v (length (heap w)) cm) cm2 (S t0) ds a ->
  dialled w w2 cm cm2 t0 (v :: ds) a.
Proof.
  intros Hd1 Hh1 Hans Hc. unfold dialled. rewrite Hd1.
  unfold setConnectionToPool. cbn [pool set_pool].
  intros [[Hfail Hsame] | (k & lv & p & Hk & Hd & Hlater & Hp & Hge & Hh)].
  - destruct (decide (a = v)) as [-> | Hne].
    + right. exists 0%nat, live, (length (heap w)). repeat split.
      * now rewrite Nat.add_0_r.
      * intros [|j] Hj Hjk; [lia|]. rewrite Nat.add_succ_r. now apply Hfail.
      * rewrite Hsame. apply lookup_insert_eq.
      * lia.
      * exact Hc.
    + left. split.
      * intros [|k] Hk; cbn in Hk; [congruence|].
        rewrite Nat.add_succ_r. now apply Hfail.
      * rewrite Hsame. now apply lookup_insert_ne.
  - right. exists (S k), lv, p. repeat split; try assumption.
    + rewrite Nat.add_succ_r. exact Hd.
    + intros [|j] Hj Hjk; [lia|]. rewrite Nat.add_succ_r.
      apply Hlater; [lia | exact Hjk].
    + lia.
Qed.

Lemma now_record (ev : Event) (w : World) : now (record ev w) = S (now w).
Proof. unfold now. cbn [trace record]. rewrite length_app. cbn. lia. Qed.

(** The dials of [fillPool], one by one: what each address not tracked
    gets. *)
Lemma fillPool_dials (tracked : list string) (l : list string) :
  forall (w : World) (cm : ConnectionMulti) (a : string),
    a ∉ tracked ->
    dialled w (fst (fillPool tracked l w cm)) cm
            (snd (fillPool tracked l w cm)) (now w)
            (List.filter (fun v => bool_decide (v ∉ tracked)) l) a.
Proof.
  induction l as [|v l IH]; intros w cm a Hnt.
  { left. split; [|reflexivity]. intros k Hk. cbn in Hk. discriminate. }
  cbn [fillPool List.filter]. rewrite indexOf_absent.
  destruct (bool_decide (v ∉ tracked)) eqn:Hnew; [|now apply IH].
  destruct (Connect_answers w v) as [(e & Hans & ->) | (live & Hans & ->)].
  - (* the dial fails *)
    specialize (IH (record (EvDial v) w) cm a Hnt). rewrite now_record in IH.
    now apply (dialled_after_failure w (record (EvDial v) w)) with (e := e).
  - (* the dial gives a connection *)
    set (st := if live then Connected else Connecting).
    set (w1 := record (EvDial v) (allocate (mkConnection v st) w)).
    set (cm1 := setConnectionToPool v (length (heap w)) cm).
    assert (Hlen1 : length (heap w1) = S (length (heap w))).
    { unfold w1. cbn [heap record allocate]. rewrite length_app. cbn. lia. }
    destruct (fillPool_spec tracked l w1 cm1) as (_ & _ & _ & _ & H5 & _).
    assert (Hnow : now w1 = S (now w))
      by (unfold w1; rewrite now_record; reflexivity).
    specialize (IH w1 cm1 a Hnt). rewrite Hnow in IH.
    apply (dialled_after_success w w1) with (live := live);
      try assumption; try reflexivity; [lia|].
    rewrite H5 by lia. unfold w1. cbn [heap record allocate].
    rewrite lookup_app_r by lia. now rewrite Nat.sub_diag.
Qed.

Lemma clearPool_spec (fresh : list string) (l : list string) :
  forall (w : World) (cm : ConnectionMulti),
    let w3 := fst (clearPool fresh l w cm) in
    let cm3 := snd (clearPool fresh l w cm) in
    addrs cm3 = addrs cm /\
    length (heap w3) = length (heap w) /\
    (forall a : string, a ∈ l -> a ∉ fresh -> pool cm3 !! a = None) /\
    (forall a : string, a ∉ l \/ a ∈ fresh -> pool cm3 !! a = pool cm !! a) /\
    (forall p : nat,
       (forall a : string, a ∈ l -> a ∉ fresh -> pool cm !! a <> Some p) ->
       heap w3 !! p = heap w !! p) /\
    (forall p : nat, ClosedNow w p = true -> ClosedNow w3 p = true) /\
    (forall (a : string) (p : nat),
       a ∈ l -> a ∉ fresh -> pool cm !! a = Some p ->
       (p < length (heap w))%nat -> ClosedNow w3 p = true) /\
    exists closed : list nat,
      trace w3 = (trace w ++ map EvClose closed)%list /\
      forall p : nat,
        In p closed <->
        exists a : string, (a ∈ l) /\ (a ∉ fresh) /\ pool cm !! a = Some p.
Proof.
  induction l as [|v l IH]; intros w cm.
  { cbn. repeat split; auto.
    - intros a Ha. now apply elem_of_nil in Ha.
    - intros a p Ha. now apply elem_of_nil in Ha.
    - exists []. cbn. rewrite app_nil_r. split; [reflexivity|].
      intros p. split; [tauto|]. intros (a & Ha & _). now apply elem_of_nil in Ha. }
  cbn [clearPool]. rewrite indexOf_absent.
  destruct (bool_decide (v ∉ fresh)) eqn:Hgone.
  2:{ (* [v] stays *)
    apply bool_decide_eq_false in Hgone.
    assert (Hv : v ∈ fresh) by (destruct (decide (v ∈ fresh)); tauto).
    destruct (IH w cm) as (H1 & H2 & H3 & H4 & H5 & H6 & H7 & closed & H8 & H9).
    assert (Hrest : forall a : string, a ∈ v :: l -> a ∉ fresh -> a ∈ l).
    { intros a Ha Hnf. apply elem_of_cons in Ha as [-> | Ha]; [contradiction | exact Ha]. }
    repeat split; try assumption.
    - intros a Ha Hnf. apply H3; auto.
    - intros a [Ha | Ha]; apply H4; [left | now right].
      intros Hin. apply Ha. now right.
    - intros p Hp. apply H5. intros a Ha Hnf. apply Hp; [now right | exact Hnf].
    - intros a p Ha Hnf. apply H7; auto.
    - exists closed. split; [exact H8|]. intros p. rewrite H9. split.
      + intros (a & Ha & Hnf & Hp). exists a. repeat split; auto. now right.
      + intros (a & Ha & Hnf & Hp). exists a. repeat split; auto. }
  apply bool_decide_eq_true in Hgone.
  set (w1 := match getConnectionFromPool cm v with
             | (Some con, true) => fst (Connection_Close w con)
             | _ => w
             end).
  set (cm1 := deleteConnectionFromPool v cm).
  assert (Hpool1 : forall a : string, a <> v -> pool cm1 !! a = pool cm !! a).
  { intros a Hne. unfold cm1, deleteConnectionFromPool. cbn [pool set_pool].
    now apply lookup_delete_ne. }
  assert (Hpool1v : pool cm1 !! v = None).
  { unfold cm1, deleteConnectionFromPool. cbn [pool set_pool].
    apply lookup_delete_eq. }
  assert (Hlen1 : length (heap w1) = length (heap w)).
  { unfold w1, getConnectionFromPool. destruct (pool cm !! v); [|reflexivity].
    apply Close_heap_length. }
  assert (Hkeep1 : forall p : nat, ClosedNow w p = true -> ClosedNow w1 p = true).
  { intros p Hp. unfold w1, getConnectionFromPool.
    destruct (pool cm !! v); [|exact Hp]. now apply Close_keeps_closed. }
  assert (Hother1 : forall p : nat, pool cm !! v <> Some p ->
                                    heap w1 !! p = heap w !! p).
  { intros p Hp. unfold w1, getConnectionFromPool.
    destruct (pool cm !! v) as [q|]; [|reflexivity].
    apply Close_other. congruence. }
  assert (Hclose1 : forall p : nat, pool cm !! v = Some p ->
                                    (p < length (heap w))%nat ->
                                    ClosedNow w1 p = true).
  { intros p Hp Hlt. unfold w1, getConnectionFromPool. rewrite Hp.
    now apply Close_closes. }
  assert (Htrace1 : trace w1 =
                    (trace w ++ map EvClose (option_list (pool cm !! v)))%list).
  { unfold w1, getConnectionFromPool.
    destruct (pool cm !! v) as [q|]; cbn; [reflexivity | now rewrite app_nil_r]. }
  destruct (IH w1 cm1) as (H1 & H2 & H3 & H4 & H5 & H6 & H7 & closed & H8 & H9).
  repeat split.
  - exact H1.
  - now rewrite H2.
  - intros a Ha Hnf. destruct (decide (a ∈ l)) as [Hin | Hnin]; [now apply H3|].
    apply elem_of_cons in Ha as [-> | Ha]; [|contradiction].
    rewrite H4 by now left. exact Hpool1v.
  - intros a Ha. rewrite H4.
    + apply Hpool1. intros ->. destruct Ha as [Ha | Ha]; [|contradiction].
      apply Ha. now left.
    + destruct Ha as [Ha | Ha]; [left | now right].
      intros Hin. apply Ha. now right.
  - intros p Hp. rewrite H5.
    + apply Hother1. apply Hp; [now left | exact Hgone].
    + intros a Ha Hnf Habs.
      destruct (decide (a = v)) as [-> | Hne]; [congruence|].
      rewrite Hpool1 in Habs by assumption.
      exact (Hp a ltac:(now right) Hnf Habs).
  - intros p Hp. apply H6, Hkeep1, Hp.
  - intros a p Ha Hnf Hp Hlt.
    destruct (decide (a = v)) as [-> | Hne].
    + apply H6. now apply Hclose1.
    + apply elem_of_cons in Ha as [-> | Ha]; [contradiction|].
      apply (H7 a p); auto; [now rewrite Hpool1 | lia].
  - exists (option_list (pool cm !! v) ++ closed)%list. split.
    + rewrite H8, Htrace1, map_app. now rewrite <- app_assoc.
    + intros p. rewrite in_app_iff, H9. split.
      * intros [Hp | (a & Ha & Hnf & Hp)].
        -- exists v. split; [now left|]. split; [exact Hgone|].
           destruct (pool cm !! v) as [q|]; cbn in Hp; [|tauto].
           destruct Hp as [-> | []]. reflexivity.
        -- exists a. split; [now right|]. split; [exact Hnf|].
           destruct (decide (a = v)) as [-> | Hne]; [congruence|].
           now rewrite <- Hpool1.
      * intros (a & Ha & Hnf & Hp).
        destruct (decide (a = v)) as [-> | Hne].
        -- left. rewrite Hp. now left.
        -- right. exists a. apply elem_of_cons in Ha as [-> | Ha]; [contradiction|].
           repeat split; auto. now rewrite Hpool1.
Qed.

Lemma pool_filed_lookup (w : World) (cm : ConnectionMulti) (a : string) (p : nat) :
  pool_filed w cm = true -> pool cm !! a = Some p ->
  exists o : Connection, heap w !! p = Some o /\ addr o = a.
Proof.
  unfold pool_filed. rewrite forallb_forall. intros H Hp.
  specialize (H (a, p)). cbn [fst snd] in H.
  destruct (heap w !! p) as [o|].
  - exists o. split; [reflexivity|]. apply String.eqb_eq. apply H.
    apply list_elem_of_In. now apply elem_of_map_to_list.
  - discriminate H. apply list_elem_of_In. now apply elem_of_map_to_list.
Qed.

Lemma getCurrentConnection_keeps (w : World) (cm : ConnectionMulti) :
  addrs (fst (getCurrentConnection w cm)) = addrs cm /\
  pool (fst (getCurrentConnection w cm)) = pool cm /\
  opts (fst (getCurrentConnection w cm)) = opts cm.
Proof.
  unfold getCurrentConnection.
  destruct (currentLoop w (pool cm) (addrs cm) (fallback cm)).
  repeat split; reflexivity.
Qed.

(** C3, as the code has it: a discovery tick on an open pool with a
    discovery function and a current connection, every entry of the pool
    map being a connection to the address it is filed under, always goes
    on with the loop.  When the call returns without error and the first
    element of the result is a non-empty list of addresses, the pool is
    reconciled with that list: the tracked list is that list; retained
    addresses keep entry and connection; the entries of addresses no
    longer present are closed and evicted; the newly present addresses are
    dialled in order, and each gets as its entry the connection that the
    last dial of it to give one returns, and keeps the entry it had when
    every dial of it fails.  Any other answer, an empty first element
    included, leaves tracked list, pool map and connections as they
    were. *)
Theorem onRefresh_reconciles (w : World) (cm : ConnectionMulti) (c : ptr) :
  getState cm <> connClosed ->
  NodesGetFunctionName (opts cm) <> "" ->
  snd (getCurrentConnection w cm) = Some c ->
  pool_filed w cm = true ->
  exists (w' : World) (cm' : ConnectionMulti),
    onRefresh w cm = Done (w', cm', Continue) /\
    match caller w (now w) c (NodesGetFunctionName (opts cm)) with
    | ((v :: more) :: _, None) => reconciled w w' cm cm' c (v :: more)
    | _ => untouched w w' cm cm'
    end.
Proof.
  intros Hstate Hname Hcur Hfiled.
  unfold onRefresh, Call17Typed, Connection_Call17Typed.
  rewrite (proj2 (Z.eqb_neq _ _) Hstate).
  rewrite (proj2 (String.eqb_neq _ _) Hname). cbn [orb].
  destruct (getCurrentConnection_keeps w cm) as (Ha1 & Hp1 & _).
  destruct (getCurrentConnection w cm) as [cm1 cur]. cbn [fst snd] in *.
  subst cur. cbn [deref obind].
  set (fn := NodesGetFunctionName (opts cm)).
  destruct (caller w (now w) c fn) as [resp err]. cbn [obind].
  set (w1 := record (EvCall c fn) w).
  assert (Hsame : untouched w w1 cm cm1) by (repeat split; assumption).
  destruct err as [e|].
  { exists w1, cm1. split; [reflexivity|]. now destruct resp as [|[|? ?] ?]. }
  destruct resp as [|fresh rest]; [now exists w1, cm1|].
  destruct fresh as [|v more]; [now exists w1, cm1|].
  set (fresh := v :: more). cbn [length Nat.ltb Nat.leb].
  pose proof (fillPool_spec (addrs cm1) fresh w1 cm1) as HF.
  pose proof (fillPool_dials (addrs cm1) fresh w1 cm1) as HD.
  destruct (fillPool (addrs cm1) fresh w1 cm1) as [w2 cm2].
  cbn [fst snd] in HF, HD.
  destruct HF as (F1 & F2 & F3 & F4 & F5 & F6 & F7 & F8).
  assert (Hnow : now w1 = S (now w)).
  { unfold now, w1. cbn [trace record]. rewrite length_app. cbn. lia. }
  unfold dialled in HD. rewrite Hnow, Ha1, Hp1 in HD.
  pose proof (clearPool_spec fresh (addrs cm2) w2 cm2) as HK.
  destruct (clearPool fresh (addrs cm2) w2 cm2) as [w3 cm3].
  cbn [fst snd] in HK.
  destruct HK as (K1 & K2 & K3 & K4 & K5 & K6 & K7 & closed & K8 & K9).
  rewrite F1, Ha1 in K3, K4, K5, K7, K9.
  rewrite Ha1 in F3, F6, F8. rewrite Hp1 in F6, F7.
  change (heap w1) with (heap w) in *.
  change (dialer w1) with (dialer w) in *.
  assert (Hold : forall (a : string) (p : nat),
             a ∈ addrs cm -> pool cm2 !! a = Some p ->
             exists o : Connection, heap w !! p = Some o /\ addr o = a).
  { intros a p Ha Hp. rewrite F6 in Hp by now left.
    now apply (pool_filed_lookup w cm). }
  exists w3, (set_addrs fresh cm3). split; [reflexivity|].
  unfold reconciled. cbn [set_addrs addrs pool].
  split; [reflexivity|]. split; [|split; [|split]].
  - (* retained *)
    intros a Ha Hf. split.
    + rewrite K4 by now right. apply F6. now left.
    + intros p Hp.
      destruct (pool_filed_lookup w cm a p Hfiled Hp) as (o & Ho & Hao).
      rewrite K5.
      * apply F5. now apply lookup_lt_Some in Ho.
      * intros a' Ha' Hnf Habs.
        destruct (Hold a' p Ha' Habs) as (o' & Ho' & Hao').
        rewrite Ho in Ho'. injection Ho' as <-. congruence.
  - (* no longer present *)
    intros a Ha Hnf. split; [now apply K3|].
    intros p Hp.
    destruct (pool_filed_lookup w cm a p Hfiled Hp) as (o & Ho & _).
    apply (K7 a p); try assumption.
    + rewrite F6 by now left. exact Hp.
    + apply lookup_lt_Some in Ho. lia.
  - (* newly present *)
    intros a Hf Hna. unfold dialled. cbn [set_addrs pool].
    destruct (HD a Hna)
      as [[Hfail Hsame'] | (k & lv & p & Hk & Hd & Hlater & Hp & Hge & Hh)].
    + left. split; [exact Hfail|]. rewrite K4 by now right. exact Hsame'.
    + right. exists k, lv, p. repeat split; try assumption.
      * rewrite K4 by now right. exact Hp.
      * rewrite K5; [exact Hh|]. intros a' Ha' _ Habs.
        destruct (Hold a' p Ha' Habs) as (o & Ho & _).
        apply lookup_lt_Some in Ho. lia.
  - (* what the tick did *)
    exists closed. split.
    + rewrite K8, F3. unfold w1. cbn [trace record].
      rewrite <- !app_assoc. reflexivity.
    + intros p. rewrite K9. split.
      * intros (a & Ha & Hnf & Hp). exists a. repeat split; try assumption.
        rewrite <- F6 by now left. exact Hp.
      * intros (a & Ha & Hnf & Hp). exists a. repeat split; try assumption.
        rewrite F6 by now left. exact Hp.
Qed.

(** The tick of section 8: tracked a and b, the discovery function
    answers b and c. *)
Lemma onRefresh_reconciles_witness :
  exists (w' : World) (cm' : ConnectionMulti),
    onRefresh (cluster [["b:3301"; "c:3301"]]) discovering_pool =
      Done (w', cm', Continue) /\
    reconciled (cluster [["b:3301"; "c:3301"]]) w' discovering_pool cm' 0%nat
               ["b:3301"; "c:3301"].
Proof.
  apply (onRefresh_reconciles (cluster [["b:3301"; "c:3301"]])
           discovering_pool 0%nat).
  - vm_compute. discriminate.
  - discriminate.
  - vm_compute. reflexivity.
  - vm_compute. reflexivity.
Defined.

Example onRefresh_b_c :
  exists (w' : World) (cm' : ConnectionMulti),
    onRefresh (cluster [["b:3301"; "c:3301"]]) discovering_pool =
      Done (w', cm', Continue) /\
    addrs cm' = ["b:3301"; "c:3301"] /\
    pool cm' = <["b:3301" := 1%nat]> {["c:3301" := 2%nat]} /\
    heap w' = [mkConnection "a:3301" Closed; mkConnection "b:3301" Connected;
               mkConnection "c:3301" Connected] /\
    trace w' = [EvCall 0%nat "get_nodes"; EvDial "c:3301"; EvClose 0%nat].
Proof.
  eexists _, _. split; [vm_compute; reflexivity|].
  repeat split; vm_compute; reflexivity.
Qed.

(** C3, as the claim has it, fails twice.  An empty list of addresses is
    a list of address strings, and when the first element of the result is
    the empty list the tracked list stays ["a"; "b"] instead of becoming
    that list: the tick only records the call.  And a newly present
    address has a connection opened only when its dial gives one: with a
    and b tracked and the answer b and c, when the dial of c fails c is
    tracked without entry and without connection. *)
Lemma onRefresh_not_as_claimed :
  (caller (cluster [[]]) 0%nat 0%nat "get_nodes" = ([[]], None) /\
   onRefresh (cluster [[]]) discovering_pool =
     Done (record (EvCall 0%nat "get_nodes") (cluster [[]]),
           discovering_pool, Continue) /\
   addrs discovering_pool = ["a:3301"; "b:3301"] /\
   addrs discovering_pool <> []) /\
  (caller (cluster_down [["b:3301"; "c:3301"]]) 0%nat 0%nat "get_nodes" =
     ([["b:3301"; "c:3301"]], None) /\
   exists (w' : World) (cm' : ConnectionMulti),
     onRefresh (cluster_down [["b:3301"; "c:3301"]]) discovering_pool =
       Done (w', cm', Continue) /\
     addrs cm' = ["b:3301"; "c:3301"] /\
     pool cm' = {["b:3301" := 1%nat]} /\
     pool cm' !! "c:3301" = None /\
     heap w' = [mkConnection "a:3301" Closed;
                mkConnection "b:3301" Connected] /\
     trace w' = [EvCall 0%nat "get_nodes"; EvDial "c:3301"; EvClose 0%nat]).
Proof.
  split.
  - split; [reflexivity|]. split; [vm_compute; reflexivity|].
    split; [reflexivity | discriminate].
  - split; [reflexivity|]. eexists _, _. split; [vm_compute; reflexivity|].
    repeat split; vm_compute; reflexivity.
Qed.

(* ===================================================================== *)
(** * Further properties of the code *)
(* ===================================================================== *)

(* --------------------------------------------------------------------- *)
(** ** indexOf *)

Lemma indexOf_from_first (s : string) (data : list string) :
  forall k : Z,
    (indexOf_from k s data = -1 /\ s ∉ data) \/
    (exists i : nat,
       indexOf_from k s data = k + Z.of_nat i /\
       data !! i = Some s /\
       forall j : nat, (j < i)%nat -> data !! j <> Some s).
Proof.
  induction data as [|v data IH]; intros k.
  - left. split; [reflexivity | apply not_elem_of_nil].
  - cbn [indexOf_from]. destruct (String.eqb_spec s v) as [-> | Hne].
    + right. exists 0%nat. split; [lia|]. split; [reflexivity|].
      intros j Hj. lia.
    + destruct (IH (k + 1)) as [[H1 H2] | (i & H1 & H2 & H3)].
      * left. split; [exact H1|]. rewrite not_elem_of_cons. tauto.
      * right. exists (S i). split; [lia|]. split; [exact H2|].
        intros [|j] Hj; cbn; [congruence | apply H3; lia].
Qed.

(** X1: [indexOf] answers -1 exactly for a string that is not in the
    list, and otherwise the position of its first occurrence. *)
Theorem indexOf_first (s : string) (data : list string) :
  (indexOf s data = -1 /\ s ∉ data) \/
  (exists i : nat,
     indexOf s data = Z.of_nat i /\
     data !! i = Some s /\
     forall j : nat, (j < i)%nat -> data !! j <> Some s).
Proof.
  destruct (indexOf_from_first s data 0) as [H | (i & H1 & H2 & H3)].
  - now left.
  - right. exists i. split; [unfold indexOf; rewrite H1; lia|].
    split; assumption.
Qed.

(* --------------------------------------------------------------------- *)
(** ** The classifiers of msgpack.go *)

Lemma msgpackIsMap_ranges (c : Z) :
  msgpackIsMap c = true <-> 0x80 <= c <= 0x8f \/ c = 0xde \/ c = 0xdf.
Proof.
  unfold msgpackIsMap, msgpcode.IsFixedMap, msgpcode.Map16, msgpcode.Map32,
    msgpcode.FixedMapLow, msgpcode.FixedMapHigh.
  rewrite !orb_true_iff, !andb_true_iff, !Z.eqb_eq, !Z.leb_le. lia.
Qed.

Lemma msgpackIsArray_ranges (c : Z) :
  msgpackIsArray c = true <-> 0x90 <= c <= 0x9f \/ c = 0xdc \/ c = 0xdd.
Proof.
  unfold msgpackIsArray, msgpcode.IsFixedArray, msgpcode.Array16,
    msgpcode.Array32, msgpcode.FixedArrayLow, msgpcode.FixedArrayHigh.
  rewrite !orb_true_iff, !andb_true_iff, !Z.eqb_eq, !Z.leb_le. lia.
Qed.

Lemma msgpackIsString_ranges (c : Z) :
  msgpackIsString c = true <-> 0xa0 <= c <= 0xbf \/ 0xd9 <= c <= 0xdb.
Proof.
  unfold msgpackIsString, msgpcode.IsFixedString, msgpcode.Str8,
    msgpcode.Str16, msgpcode.Str32, msgpcode.FixedStrLow, msgpcode.FixedStrHigh.
  rewrite !orb_true_iff, !andb_true_iff, !Z.eqb_eq, !Z.leb_le. lia.
Qed.

(** X2: no code is put into two classes: of the four classifiers at
    most one answers [true]. *)
Theorem classifiers_exclusive (c : Z) :
  msgpackIsUint c && msgpackIsMap c = false /\
  msgpackIsUint c && msgpackIsArray c = false /\
  msgpackIsUint c && msgpackIsString c = false /\
  msgpackIsMap c && msgpackIsArray c = false /\
  msgpackIsMap c && msgpackIsString c = false /\
  msgpackIsArray c && msgpackIsString c = false.
Proof.
  repeat split; apply not_true_is_false; rewrite andb_true_iff;
    rewrite ?msgpackIsUint_ranges, ?msgpackIsMap_ranges,
      ?msgpackIsArray_ranges, ?msgpackIsString_ranges; lia.
Qed.

Lemma on_all_bytes (P : Z -> bool) :
  forallb P all_bytes = true -> forall c : Z, is_byte c -> P c = true.
Proof.
  intros H c [Hlo Hhi]. rewrite forallb_forall in H. apply H.
  unfold all_bytes. apply in_map_iff. exists (Z.to_nat c).
  split; [lia|]. apply in_seq. lia.
Qed.

(** X3: on a byte the classifiers are the bit patterns of the format
    together with the markers of the longer forms: a map header is a
    fixmap, map16 or map32; an array header a fixarray, array16 or
    array32; a string header a fixstr, str8, str16 or str32; and
    [msgpackIsUint] takes the fixints of both signs and uint8..uint64. *)
Theorem classifiers_bit_patterns (c : Z) :
  is_byte c ->
  msgpackIsMap c = is_fixmap c || (c =? 0xde) || (c =? 0xdf) /\
  msgpackIsArray c = is_fixarray c || (c =? 0xdc) || (c =? 0xdd) /\
  msgpackIsString c = is_fixstr c || (c =? 0xd9) || (c =? 0xda) || (c =? 0xdb) /\
  msgpackIsUint c =
    is_positive_fixint c || is_negative_fixint c ||
    (c =? 0xcc) || (c =? 0xcd) || (c =? 0xce) || (c =? 0xcf).
Proof.
  intros Hc.
  pose proof (on_all_bytes
    (fun c =>
       Bool.eqb (msgpackIsMap c) (is_fixmap c || (c =? 0xde) || (c =? 0xdf)) &&
       Bool.eqb (msgpackIsArray c)
                (is_fixarray c || (c =? 0xdc) || (c =? 0xdd)) &&
       Bool.eqb (msgpackIsString c)
                (is_fixstr c || (c =? 0xd9) || (c =? 0xda) || (c =? 0xdb)) &&
       Bool.eqb (msgpackIsUint c)
                (is_positive_fixint c || is_negative_fixint c ||
                 (c =? 0xcc) || (c =? 0xcd) || (c =? 0xce) || (c =? 0xcf)))
    ltac:(vm_compute; reflexivity) c Hc) as H.
  cbv beta in H. rewrite !andb_true_iff in H.
  destruct H as [[[H1 H2] H3] H4].
  apply Bool.eqb_prop in H1, H2, H3, H4. auto.
Qed.

Lemma classifiers_bit_patterns_witness :
  is_byte 0x85 /\
  msgpackIsMap 0x85 = is_fixmap 0x85 || (0x85 =? 0xde) || (0x85 =? 0xdf).
Proof.
  assert (H : is_byte 0x85) by (unfold is_byte; lia).
  split; [exact H|].
  exact (proj1 (classifiers_bit_patterns 0x85 H)).
Defined.

(* --------------------------------------------------------------------- *)
(** ** The Begin body over a writer that may fail *)

(** X4: over a writer that keeps the contract of [io.Writer] (it takes no
    more than it is handed, and reports an error when it takes less),
    [fillBegin] leaves behind what was written before and a prefix of the
    bytes of the body, which may end inside a value; the prefix is the
    whole body when no error is returned; an error returned is one the
    writer reported; and no error is returned when the writer never
    reports one. *)
Theorem fillBegin_short_write (KeyTimeout KeyTxnIsolation i t : Z)
  (e : encoder) :
  honest e ->
  exists (k : nat) (err : option error),
    fillBegin KeyTimeout KeyTxnIsolation i t e =
      (mkEncoder
         (written e ++ take k (begin_bytes KeyTimeout KeyTxnIsolation i t))
         (writer e), err) /\
    (k <= length (begin_bytes KeyTimeout KeyTxnIsolation i t))%nat /\
    (err = None ->
     k = length (begin_bytes KeyTimeout KeyTxnIsolation i t)) /\
    (forall x : error, err = Some x ->
       exists (taken p : list Z) (n : nat), writer e taken p = (n, Some x)) /\
    ((forall taken p : list Z, snd (writer e taken p) = None) -> err = None).
Proof.
  intros H. rewrite fillBegin_write_all. unfold begin_bytes.
  rewrite flat_map_concat_map. now apply write_all_honest.
Qed.

Lemma limited_honest (cap : nat) : honest (limited cap).
Proof.
  intros taken p n err. cbn [limited writer]. unfold limited_writer.
  destruct (Nat.leb_spec (length taken + length p) cap);
    intros Heq; injection Heq as <- <-; split;
    try lia; try reflexivity; discriminate.
Qed.

Lemma fillBegin_short_write_witness :
  honest (limited 5) /\
  exists (k : nat) (err : option error),
    fillBegin 0x56 0x59 ReadCommittedLevel 1500000000 (limited 5) =
      (mkEncoder
         (written (limited 5) ++
          take k (begin_bytes 0x56 0x59 ReadCommittedLevel 1500000000))
         (writer (limited 5)), err) /\
    (k <= length (begin_bytes 0x56 0x59 ReadCommittedLevel 1500000000))%nat /\
    (err = None ->
     k = length (begin_bytes 0x56 0x59 ReadCommittedLevel 1500000000)) /\
    (forall x : error, err = Some x ->
       exists (taken p : list Z) (n : nat),
         writer (limited 5) taken p = (n, Some x)) /\
    ((forall taken p : list Z, snd (writer (limited 5) taken p) = None) ->
     err = None).
Proof.
  split; [apply limited_honest|].
  exact (fillBegin_short_write 0x56 0x59 ReadCommittedLevel 1500000000
           (limited 5) (limited_honest 5)).
Defined.

(** A writer with room for five bytes takes the header, the timeout key
    and the first three bytes of the float64. *)
Example fillBegin_five_bytes :
  fillBegin 0x56 0x59 ReadCommittedLevel 1500000000 (limited 5) =
  (mkEncoder [0x82; 0x56; 0xcb; 0x3f; 0xf8] (limited_writer 5),
   Some "short write").
Proof. vm_compute. reflexivity. Qed.

(** X5: the bytes tell the request: when two calls of [fillBegin], each
    over an encoder whose writer takes what it is handed, append the same
    bytes, the isolation levels are the same, both or neither carry a
    timeout, and the timeouts they carry are the same float64. *)
Theorem fillBegin_body_determines
  (KeyTimeout KeyTxnIsolation i t i' t' : Z) (e e' : encoder) (b : list Z) :
  is_uint64 KeyTimeout -> is_uint64 KeyTxnIsolation ->
  is_uint64 i -> is_uint64 i' ->
  accepting e -> accepting e' ->
  written (fst (fillBegin KeyTimeout KeyTxnIsolation i t e)) =
    (written e ++ b)%list ->
  written (fst (fillBegin KeyTimeout KeyTxnIsolation i' t' e')) =
    (written e' ++ b)%list ->
  i = i' /\ (0 < t <-> 0 < t') /\
  (0 < t ->
   Float64bits (Seconds t) mod 2 ^ 64 = Float64bits (Seconds t') mod 2 ^ 64).
Proof.
  intros H1 H2 Hi Hi' Hok Hok'.
  rewrite !fillBegin_writes by assumption. cbn [fst written].
  intros Hb Hb'. apply app_inv_head in Hb, Hb'.
  pose proof (read_body_begin KeyTimeout KeyTxnIsolation i t H1 H2 Hi) as R.
  pose proof (read_body_begin KeyTimeout KeyTxnIsolation i' t' H1 H2 Hi') as R'.
  rewrite Hb in R. rewrite Hb' in R'. rewrite R in R'. clear R Hb Hb'.
  injection R' as Heq. revert Heq.
  unfold begin_wire, DefaultIsolationLevel.
  destruct (Z.ltb_spec 0 t), (Z.ltb_spec 0 t'),
    (Z.eqb_spec i 0), (Z.eqb_spec i' 0);
    cbn; intros Heq; try discriminate Heq;
    repeat split; intros; try lia; try congruence.
Qed.

(** Two requests with the same body, the second behind a body that the
    buffer holds already: no timeout and a negative one. *)
Lemma fillBegin_body_determines_witness :
  written (fst (fillBegin 0x56 0x59 BestEffortLevel 0 buffer)) =
    (written buffer ++ [0x81; 0x59; 0x03])%list /\
  written (fst (fillBegin 0x56 0x59 BestEffortLevel (-5) used_buffer)) =
    (written used_buffer ++ [0x81; 0x59; 0x03])%list /\
  BestEffortLevel = BestEffortLevel /\ (0 < 0 <-> 0 < -5) /\
  (0 < 0 ->
   Float64bits (Seconds 0) mod 2 ^ 64 = Float64bits (Seconds (-5)) mod 2 ^ 64).
Proof.
  assert (H1 : is_uint64 0x56) by (unfold is_uint64; lia).
  assert (H2 : is_uint64 0x59) by (unfold is_uint64; lia).
  assert (Hi : is_uint64 BestEffortLevel)
    by (unfold is_uint64, BestEffortLevel; lia).
  assert (Hok : accepting buffer) by (intros taken p; reflexivity).
  assert (Hok' : accepting used_buffer) by (intros taken p; reflexivity).
  assert (Hb : written (fst (fillBegin 0x56 0x59 BestEffortLevel 0 buffer)) =
               (written buffer ++ [0x81; 0x59; 0x03])%list)
    by (vm_compute; reflexivity).
  assert (Hb' : written (fst (fillBegin 0x56 0x59 BestEffortLevel (-5)
                                used_buffer)) =
                (written used_buffer ++ [0x81; 0x59; 0x03])%list)
    by (vm_compute; reflexivity).
  split; [exact Hb|]. split; [exact Hb'|].
  exact (fillBegin_body_determines 0x56 0x59 BestEffortLevel 0
           BestEffortLevel (-5) buffer used_buffer [0x81; 0x59; 0x03]
           H1 H2 Hi Hi Hok Hok' Hb Hb').
Defined.

(* --------------------------------------------------------------------- *)
(** ** The invariant of the pool map *)

Lemma pool_filed_iff (w : World) (cm : ConnectionMulti) :
  pool_filed w cm = true <-> filed (heap w) (pool cm).
Proof.
  split.
  - intros H a p Hp. now apply (pool_filed_lookup w cm).
  - intros H. unfold pool_filed. apply forallb_forall. intros [a p] Hin.
    apply list_elem_of_In, elem_of_map_to_list in Hin.
    destruct (H a p Hin) as (o & Ho & Hao). cbn [fst snd]. rewrite Ho.
    now apply String.eqb_eq.
Qed.

Lemma keys_tracked_iff (cm : ConnectionMulti) :
  keys_tracked cm = true <->
  forall a : string, is_Some (pool cm !! a) -> a ∈ addrs cm.
Proof.
  unfold keys_tracked. rewrite forallb_forall. split.
  - intros H a [p Hp]. specialize (H (a, p)). cbn [fst] in H.
    apply bool_decide_eq_true in H; [exact H|].
    apply list_elem_of_In. now apply elem_of_map_to_list.
  - intros H [a p] Hin. cbn [fst].
    apply list_elem_of_In, elem_of_map_to_list in Hin.
    apply bool_decide_eq_true. apply H. now exists p.
Qed.

Lemma pool_ok_iff (w : World) (cm : ConnectionMulti) :
  pool_ok w cm = true <->
  filed (heap w) (pool cm) /\
  forall a : string, is_Some (pool cm !! a) -> a ∈ addrs cm.
Proof.
  unfold pool_ok. now rewrite andb_true_iff, pool_filed_iff, keys_tracked_iff.
Qed.

Lemma filed_alter (h : list Connection) (m : gmap string nat) (c : nat)
  (st : Status) :
  filed h m -> filed (alter (set_status st) c h) m.
Proof.
  intros H a p Hp. destruct (H a p Hp) as (o & Ho & Hao).
  destruct (decide (c = p)) as [-> | Hne].
  - exists (set_status st o). rewrite list_lookup_alter_eq, Ho. now split.
  - exists o. rewrite list_lookup_alter_ne by assumption. now split.
Qed.

Lemma filed_grow (h : list Connection) (m : gmap string nat) (o : Connection) :
  filed h m -> filed (h ++ [o]) m.
Proof.
  intros H a p Hp. destruct (H a p Hp) as (o' & Ho & Hao).
  exists o'. split; [|exact Hao].
  rewrite lookup_app_l; [exact Ho|]. now apply lookup_lt_Some in Ho.
Qed.

Lemma filed_insert (h : list Connection) (m : gmap string nat) (a : string)
  (st : Status) :
  filed h m -> filed (h ++ [mkConnection a st]) (<[a := length h]> m).
Proof.
  intros H a' p Hp. destruct (decide (a = a')) as [<- | Hne].
  - rewrite lookup_insert_eq in Hp. injection Hp as <-.
    exists (mkConnection a st). split; [|reflexivity].
    rewrite lookup_app_r by lia. now rewrite Nat.sub_diag.
  - rewrite lookup_insert_ne in Hp by assumption.
    exact (filed_grow h m _ H a' p Hp).
Qed.

Lemma filed_delete (h : list Connection) (m : gmap string nat) (a : string) :
  filed h m -> filed h (delete a m).
Proof.
  intros H a' p Hp. apply lookup_delete_Some in Hp as [_ Hp]. now apply H.
Qed.

(* --------------------------------------------------------------------- *)
(** ** warmUp and the pool that the constructor returns *)

Lemma warmUp_loop_shape (all : list string) (l : list string) :
  forall (i : nat) (w : World) (cm : ConnectionMulti) (alive : bool)
         (errs : list (option error)),
    filed (heap w) (pool cm) ->
    (forall a : string, is_Some (pool cm !! a) -> a ∈ all) ->
    (forall a : string, a ∈ l -> a ∈ all) ->
    let w' := fst (fst (fst (warmUp_loop i l w cm alive errs))) in
    let cm' := snd (fst (fst (warmUp_loop i l w cm alive errs))) in
    let alive' := snd (fst (warmUp_loop i l w cm alive errs)) in
    filed (heap w') (pool cm') /\
    (forall a : string, is_Some (pool cm' !! a) -> a ∈ all) /\
    (addrs cm' = addrs cm /\ opts cm' = opts cm /\ state cm' = state cm /\
     checking cm' = checking cm) /\
    trace w' = (trace w ++ map EvDial l)%list /\
    (forall p : nat, (p < length (heap w))%nat -> heap w' !! p = heap w !! p) /\
    (length (heap w) <= length (heap w'))%nat /\
    (forall f : nat, fallback cm = Some f -> fallback cm' = Some f) /\
    (fallback cm = None ->
     forall f : nat, fallback cm' = Some f ->
                     (length (heap w) <= f < length (heap w'))%nat) /\
    (alive' = true -> alive = true \/ fallback cm' <> None).
Proof.
  induction l as [|a l IH]; intros i w cm alive errs Hfiled Hkeys Hl.
  { cbn. rewrite app_nil_r. repeat split; auto; intros; congruence. }
  cbn [warmUp_loop].
  assert (Hl' : forall a' : string, a' ∈ l -> a' ∈ all)
    by (intros a' Ha'; apply Hl; now right).
  destruct (Connect_answers w a) as [(e & _ & ->) | (live & _ & ->)].
  - (* no connection *)
    destruct (IH (S i) (record (EvDial a) w) cm alive (<[i := Some e]> errs)
                Hfiled Hkeys Hl')
      as (H1 & H2 & (H3a & H3b & H3c & H3d) & H4 & H5 & H6 & H7 & H8 & H9).
    repeat match goal with |- _ /\ _ => split end; try assumption.
    rewrite H4. cbn [trace record map]. now rewrite <- app_assoc.
  - (* a connection *)
    set (st := if live then Connected else Connecting).
    set (c := length (heap w)).
    set (w1 := record (EvDial a) (allocate (mkConnection a st) w)).
    set (cm1 := match fallback cm with
                | Some _ => cm
                | None => set_fallback (Some c) cm
                end).
    set (cm2 := set_pool (<[a := c]> (pool cm1)) cm1).
    set (alive1 := if ConnectedNow w1 c then true else alive).
    assert (Hpool1 : pool cm1 = pool cm)
      by (unfold cm1; now destruct (fallback cm)).
    assert (Hlen1 : length (heap w1) = S (length (heap w))).
    { unfold w1. cbn [heap record allocate]. rewrite length_app. cbn. lia. }
    destruct (IH (S i) w1 cm2 alive1 (<[i := None]> errs))
      as (H1 & H2 & H3 & H4 & H5 & H6 & H7 & H8 & H9).
    + unfold cm2, w1. cbn [pool set_pool heap record allocate].
      rewrite Hpool1. now apply filed_insert.
    + intros a' [p Hp]. unfold cm2 in Hp. cbn [pool set_pool] in Hp.
      rewrite Hpool1 in Hp. destruct (decide (a = a')) as [<- | Hne].
      * apply Hl. now left.
      * rewrite lookup_insert_ne in Hp by assumption. apply Hkeys. now exists p.
    + exact Hl'.
    + assert (Hfb2 : fallback cm2 = fallback cm1) by reflexivity.
      repeat match goal with |- _ /\ _ => split end.
      * exact H1.
      * exact H2.
      * destruct H3 as (-> & _). unfold cm2, cm1. now destruct (fallback cm).
      * destruct H3 as (_ & -> & _). unfold cm2, cm1. now destruct (fallback cm).
      * destruct H3 as (_ & _ & -> & _). unfold cm2, cm1.
        now destruct (fallback cm).
      * destruct H3 as (_ & _ & _ & ->). unfold cm2, cm1.
        now destruct (fallback cm).
      * rewrite H4. unfold w1. cbn [trace record allocate map].
        now rewrite <- app_assoc.
      * intros p Hp. rewrite H5 by lia. unfold w1. cbn [heap record allocate].
        now apply lookup_app_l.
      * lia.
      * intros f Hf. apply H7. rewrite Hfb2. unfold cm1. now rewrite Hf.
      * intros Hnone f Hf.
        assert (Hc : fallback cm2 = Some c)
          by (rewrite Hfb2; unfold cm1; now rewrite Hnone).
        apply H7 in Hc. rewrite Hc in Hf. injection Hf as <-. unfold c. lia.
      * intros Ha. destruct (fallback cm) as [f|] eqn:Hf.
        -- right. rewrite (H7 f); [discriminate|].
           rewrite Hfb2. unfold cm1. rewrite ?Hf. reflexivity.
        -- right. rewrite (H7 c); [discriminate|].
           rewrite Hfb2. unfold cm1. rewrite ?Hf. reflexivity.
Qed.

(** The loop finds somebody alive exactly when one of its dials is
    answered with a live connection; the j-th dial is the j-th interaction
    from now. *)
Lemma warmUp_loop_alive (l : list string) :
  forall (i : nat) (w : World) (cm : ConnectionMulti) (alive : bool)
         (errs : list (option error)),
    snd (fst (warmUp_loop i l w cm alive errs)) = true <->
    alive = true \/
    exists (j : nat) (a : string),
      l !! j = Some a /\ dialer w (now w + j) a = DialConn true.
Proof.
  induction l as [|a l IH]; intros i w cm alive errs.
  { cbn. split; [now left|]. intros [H | (j & a & Hj & _)]; [exact H|].
    now rewrite lookup_nil in Hj. }
  cbn [warmUp_loop].
  destruct (Connect_answers w a) as [(e & Hans & ->) | (live & Hans & ->)].
  - rewrite IH. change (now (record (EvDial a) w)) with (length (trace w ++ [EvDial a])).
    rewrite length_app. cbn [length]. fold (now w).
    split; (intros [H | (j & a' & Hj & Hd)]; [now left | right]).
    + exists (S j), a'. split; [exact Hj|].
      replace (now w + S j)%nat with (now w + 1 + j)%nat by lia. exact Hd.
    + destruct j as [|j].
      * cbn in Hj. injection Hj as <-. rewrite Nat.add_0_r in Hd. congruence.
      * exists j, a'. split; [exact Hj|].
        replace (now w + 1 + j)%nat with (now w + S j)%nat by lia. exact Hd.
  - set (w1 := record (EvDial a)
                 (allocate (mkConnection a (if live then Connected else Connecting)) w)).
    assert (Hnow : ConnectedNow w1 (length (heap w)) = live).
    { unfold ConnectedNow, w1. cbn [heap record allocate].
      rewrite lookup_app_r by lia. rewrite Nat.sub_diag. cbn. now destruct live. }
    rewrite Hnow. rewrite IH.
    change (now w1) with (length (trace w ++ [EvDial a])).
    rewrite length_app. cbn [length]. fold (now w).
    change (dialer w1) with (dialer w).
    split.
    + intros [H | (j & a' & Hj & Hd)].
      * destruct live.
        -- right. exists 0%nat, a. split; [reflexivity|].
           now rewrite Nat.add_0_r.
        -- now left.
      * right. exists (S j), a'. split; [exact Hj|].
        replace (now w + S j)%nat with (now w + 1 + j)%nat by lia. exact Hd.
    + intros [H | (j & a' & Hj & Hd)].
      * left. now destruct live.
      * destruct j as [|j].
        -- cbn in Hj. injection Hj as <-. rewrite Nat.add_0_r in Hd.
           left. rewrite Hans in Hd. injection Hd as ->. reflexivity.
        -- right. exists j, a'. split; [exact Hj|].
           replace (now w + 1 + j)%nat with (now w + S j)%nat by lia. exact Hd.
Qed.

Lemma ConnectedNow_grow (w : World) (o : Connection) (ev : Event) (c : nat) :
  ConnectedNow w c = true ->
  ConnectedNow (record ev (allocate o w)) c = true.
Proof.
  unfold ConnectedNow. cbn [heap record allocate].
  destruct (heap w !! c) as [o'|] eqn:Hc; [|discriminate].
  rewrite lookup_app_l by (now apply lookup_lt_Some in Hc). now rewrite Hc.
Qed.

Lemma warmUp_loop_alive_entry (l : list string) :
  forall (i : nat) (w : World) (cm : ConnectionMulti) (alive : bool)
         (errs : list (option error)),
    NoDup l ->
    (alive = true ->
     exists (a : string) (c : nat),
       (a ∉ l) /\ pool cm !! a = Some c /\ ConnectedNow w c = true) ->
    snd (fst (warmUp_loop i l w cm alive errs)) = true ->
    exists (a : string) (c : nat),
      pool (snd (fst (fst (warmUp_loop i l w cm alive errs)))) !! a = Some c /\
      ConnectedNow (fst (fst (fst (warmUp_loop i l w cm alive errs)))) c = true.
Proof.
  induction l as [|a l IH]; intros i w cm alive errs Hnd Hal.
  { cbn. intros H. destruct (Hal H) as (a & c & _ & Hp & Hc). eauto. }
  apply NoDup_cons in Hnd as [Hnotin Hnd].
  cbn [warmUp_loop].
  destruct (Connect_answers w a) as [(e & _ & ->) | (live & _ & ->)].
  - apply IH; [exact Hnd|]. intros H.
    destruct (Hal H) as (a0 & c & Ha0 & Hp & Hc).
    exists a0, c. repeat split; try assumption.
    intros Hin. apply Ha0. now right.
  - set (st := if live then Connected else Connecting).
    set (c := length (heap w)).
    set (w1 := record (EvDial a) (allocate (mkConnection a st) w)).
    set (cm1 := match fallback cm with
                | Some _ => cm
                | None => set_fallback (Some c) cm
                end).
    assert (Hpool1 : pool cm1 = pool cm)
      by (unfold cm1; now destruct (fallback cm)).
    apply IH; [exact Hnd|].
    cbn [pool set_pool]. rewrite Hpool1.
    destruct (ConnectedNow w1 c) eqn:Hnow.
    + intros _. exists a, c. split; [exact Hnotin|].
      split; [apply lookup_insert_eq | exact Hnow].
    + intros H. destruct (Hal H) as (a0 & c0 & Ha0 & Hp & Hc).
      exists a0, c0. split; [intros Hin; apply Ha0; now right|].
      split.
      * rewrite lookup_insert_ne; [exact Hp|]. intros <-. apply Ha0. now left.
      * now apply ConnectedNow_grow.
Qed.

Lemma selection_connected (w : World) (cm : ConnectionMulti) (a : string)
  (c0 : nat) :
  a ∈ addrs cm -> pool cm !! a = Some c0 -> ConnectedNow w c0 = true ->
  exists c : nat,
    snd (getCurrentConnection w cm) = Some c /\
    ConnectedNow w c = true /\ tracked cm c.
Proof.
  intros Ha Hp Hc.
  pose proof (currentLoop_selects w (pool cm) (addrs cm) (fallback cm)) as H.
  unfold getCurrentConnection.
  destruct (currentLoop w (pool cm) (addrs cm) (fallback cm)) as [fb cur].
  cbn [fst snd] in *.
  destruct (List.find _ _) as [c|] eqn:F.
  - exists c. split; [exact H|].
    apply List.find_some in F as [Hin Hcn]. split; [exact Hcn|].
    apply list_elem_of_In, list_elem_of_omap in Hin as (a' & _ & Ha').
    now exists a'.
  - exfalso. pose proof (List.find_none _ _ F c0) as Hn.
    rewrite Hc in Hn. discriminate Hn.
    apply list_elem_of_In, list_elem_of_omap. now exists a.
Qed.

(** What the constructor is left with after the two checks. *)
Lemma ConnectWithOpts_warm
  (range_of : gmap string ptr -> list (string * ptr))
  (w : World) (addrs0 : list string) (opts0 : OptsMulti) :
  addrs0 <> [] -> 0 < CheckTimeout opts0 ->
  let opts1 :=
    if ClusterDiscoveryTime opts0 <=? 0
    then mkOptsMulti (CheckTimeout opts0) (NodesGetFunctionName opts0)
                     (60 * Second)
    else opts0 in
  let cm0 := mkConnectionMulti addrs0 opts1 connConnected false ∅ None false in
  let r := warmUp_loop 0 addrs0 w cm0 false
             (replicate (length addrs0) None) in
  ConnectWithOpts range_of w addrs0 opts0 =
  if snd (fst r)
  then Done (fst (fst (fst r)), Some (set_checking (snd (fst (fst r)))), None)
  else obind (Close range_of (fst (fst (fst r))) (snd (fst (fst r))))
             (fun _r => Done (fst (fst _r), None, Some ErrNoConnection)).
Proof.
  intros Hne Hct. unfold ConnectWithOpts, warmUp.
  destruct addrs0 as [|a0 rest]; [contradiction|]. cbn [length Nat.eqb].
  destruct (Z.leb_spec (CheckTimeout opts0) 0) as [Hle | _]; [lia|].
  cbn [addrs length].
  destruct (warmUp_loop _ _ _ _ _ _) as [[[w1 cm1] alive] errs].
  cbn [fst snd]. now destruct alive.
Qed.

Lemma ConnectWithOpts_pool_inv
  (range_of : gmap string ptr -> list (string * ptr))
  (w w' : World) (addrs0 : list string) (opts0 : OptsMulti)
  (cm : ConnectionMulti) (err : option error) :
  ConnectWithOpts range_of w addrs0 opts0 = Done (w', Some cm, err) ->
  addrs0 <> [] /\ 0 < CheckTimeout opts0 /\
  exists cm1 : ConnectionMulti,
    cm = set_checking cm1 /\ err = None /\
    warmUp_loop 0 addrs0 w
      (mkConnectionMulti addrs0
         (if ClusterDiscoveryTime opts0 <=? 0
          then mkOptsMulti (CheckTimeout opts0) (NodesGetFunctionName opts0)
                           (60 * Second)
          else opts0)
         connConnected false ∅ None false)
      false (replicate (length addrs0) None) =
    (w', cm1, true,
     snd (warmUp_loop 0 addrs0 w
            (mkConnectionMulti addrs0
               (if ClusterDiscoveryTime opts0 <=? 0
                then mkOptsMulti (CheckTimeout opts0)
                                 (NodesGetFunctionName opts0) (60 * Second)
                else opts0)
               connConnected false ∅ None false)
            false (replicate (length addrs0) None))).
Proof.
  intros H.
  assert (Hne : addrs0 <> []).
  { intros ->. unfold ConnectWithOpts in H. cbn in H. discriminate. }
  assert (Hct : 0 < CheckTimeout opts0).
  { destruct (Z.leb_spec (CheckTimeout opts0) 0) as [Hle | Hgt]; [|exact Hgt].
    unfold ConnectWithOpts in H. destruct addrs0; [contradiction|].
    cbn [length Nat.eqb] in H.
    rewrite (proj2 (Z.leb_le _ _) Hle) in H. discriminate. }
  split; [exact Hne|]. split; [exact Hct|].
  rewrite (ConnectWithOpts_warm range_of w addrs0 opts0 Hne Hct) in H.
  cbv zeta in H.
  pose proof (warmUp_loop_control addrs0 0 w
    (mkConnectionMulti addrs0
       (if ClusterDiscoveryTime opts0 <=? 0
        then mkOptsMulti (CheckTimeout opts0) (NodesGetFunctionName opts0)
                         (60 * Second)
        else opts0)
       connConnected false ∅ None false)
    false (replicate (length addrs0) None)) as Hctl.
  destruct (warmUp_loop _ _ _ _ _ _) as [[[w1 cm1] alive] errs].
  cbn [fst snd control] in *.
  destruct alive.
  - injection H as <- <- <-. exists cm1. repeat split.
  - destruct (Close_returns range_of w1 cm1 Hctl) as (w2 & e & Hc).
    rewrite Hc in H. cbn in H. discriminate.
Qed.

Lemma built_on_only_b :
  ConnectWithOpts map_to_list only_b ["a:3301"; "b:3301"] one_second =
  Done (built_world, Some built_pool, None).
Proof. vm_compute. reflexivity. Qed.

(** X6: when the constructor returns a pool, it returns no error; the
    pool tracks the addresses it was given, is in the connected state with
    its control channel open and its checker started; the discovery
    interval is the one asked for, or 60 seconds when that was not
    positive; every address was dialled exactly once, in the order given,
    and nothing else was done to the connections there were. *)
Theorem ConnectWithOpts_returns_pool
  (range_of : gmap string ptr -> list (string * ptr))
  (w w' : World) (addrs0 : list string) (opts0 : OptsMulti)
  (cm : ConnectionMulti) (err : option error) :
  ConnectWithOpts range_of w addrs0 opts0 = Done (w', Some cm, err) ->
  err = None /\
  addrs cm = addrs0 /\ state cm = connConnected /\ control cm = false /\
  checking cm = true /\
  CheckTimeout (opts cm) = CheckTimeout opts0 /\
  NodesGetFunctionName (opts cm) = NodesGetFunctionName opts0 /\
  ClusterDiscoveryTime (opts cm) =
    (if ClusterDiscoveryTime opts0 <=? 0 then 60 * Second
     else ClusterDiscoveryTime opts0) /\
  0 < ClusterDiscoveryTime (opts cm) /\
  trace w' = (trace w ++ map EvDial addrs0)%list /\
  (forall p : nat, (p < length (heap w))%nat -> heap w' !! p = heap w !! p).
Proof.
  intros H.
  destruct (ConnectWithOpts_pool_inv _ _ _ _ _ _ _ H)
    as (Hne & Hct & cm1 & -> & -> & Hloop).
  set (cm0 := mkConnectionMulti _ _ _ _ _ _ _) in Hloop.
  pose proof (warmUp_loop_shape addrs0 addrs0 0 w cm0 false
                (replicate (length addrs0) None)) as S.
  pose proof (warmUp_loop_control addrs0 0 w cm0 false
                (replicate (length addrs0) None)) as Hctl.
  rewrite Hloop in S, Hctl. cbn [fst snd] in S, Hctl.
  destruct S as (_ & _ & (Ha & Ho & Hs & _) & Ht & Hh & _).
  { intros a p Hp. cbn in Hp. now rewrite lookup_empty in Hp. }
  { intros a [p Hp]. cbn in Hp. now rewrite lookup_empty in Hp. }
  { auto. }
  cbn [set_checking addrs state control checking opts].
  rewrite Ha, Ho, Hs, Hctl. cbn [cm0 addrs opts state control].
  repeat match goal with |- _ /\ _ => split end; try reflexivity;
    try assumption.
  - now destruct (ClusterDiscoveryTime opts0 <=? 0).
  - now destruct (ClusterDiscoveryTime opts0 <=? 0).
  - destruct (ClusterDiscoveryTime opts0 <=? 0); reflexivity.
  - destruct (Z.leb_spec (ClusterDiscoveryTime opts0) 0); cbn; [|lia].
    unfold Second. lia.
Qed.

Lemma ConnectWithOpts_returns_pool_witness :
  trace built_world =
    (trace only_b ++ map EvDial ["a:3301"; "b:3301"])%list /\
  ClusterDiscoveryTime (opts built_pool) = 60 * Second.
Proof.
  pose proof (ConnectWithOpts_returns_pool map_to_list only_b built_world
                ["a:3301"; "b:3301"] one_second built_pool None
                built_on_only_b) as H.
  split; [apply H|]. apply H.
Defined.

(** X7: the pool that the constructor returns satisfies the invariant of
    the pool map (every entry is a connection on the heap to the address
    it is filed under, and every key is a tracked address), and its
    fallback is not nil: it is one of the connections opened by the
    constructor. *)
Theorem ConnectWithOpts_establishes_invariant
  (range_of : gmap string ptr -> list (string * ptr))
  (w w' : World) (addrs0 : list string) (opts0 : OptsMulti)
  (cm : ConnectionMulti) (err : option error) :
  ConnectWithOpts range_of w addrs0 opts0 = Done (w', Some cm, err) ->
  pool_ok w' cm = true /\
  exists f : nat,
    fallback cm = Some f /\ (length (heap w) <= f < length (heap w'))%nat.
Proof.
  intros H.
  destruct (ConnectWithOpts_pool_inv _ _ _ _ _ _ _ H)
    as (Hne & Hct & cm1 & -> & -> & Hloop).
  set (cm0 := mkConnectionMulti _ _ _ _ _ _ _) in Hloop.
  pose proof (warmUp_loop_shape addrs0 addrs0 0 w cm0 false
                (replicate (length addrs0) None)) as S.
  rewrite Hloop in S. cbn [fst snd] in S.
  destruct S as (Hf & Hk & (Ha & _) & _ & _ & _ & _ & Hfresh & Halive).
  { intros a p Hp. cbn in Hp. now rewrite lookup_empty in Hp. }
  { intros a [p Hp]. cbn in Hp. now rewrite lookup_empty in Hp. }
  { auto. }
  split.
  - apply pool_ok_iff. cbn [set_checking pool addrs]. split; [exact Hf|].
    rewrite Ha. exact Hk.
  - cbn [set_checking fallback].
    destruct (Halive eq_refl) as [Habs | Hfb]; [discriminate|].
    destruct (fallback cm1) as [f|] eqn:Ef; [|contradiction].
    exists f. split; [reflexivity|]. now apply Hfresh.
Qed.

Lemma ConnectWithOpts_establishes_invariant_witness :
  pool_ok built_world built_pool = true /\
  exists f : nat,
    fallback built_pool = Some f /\
    (length (heap only_b) <= f < length (heap built_world))%nat.
Proof.
  exact (ConnectWithOpts_establishes_invariant map_to_list only_b built_world
           ["a:3301"; "b:3301"] one_second built_pool None built_on_only_b).
Defined.

(** X8: past the two configuration checks the constructor returns a pool
    exactly when one of the dials of the warm-up is answered with a
    connection that is connected now (the j-th address is dialled as the
    j-th interaction from the start); otherwise it returns no pool and
    [ErrNoConnection]. *)
Theorem ConnectWithOpts_succeeds_iff
  (range_of : gmap string ptr -> list (string * ptr))
  (w : World) (addrs0 : list string) (opts0 : OptsMulti) :
  addrs0 <> [] -> 0 < CheckTimeout opts0 ->
  exists (w' : World) (r : option ConnectionMulti) (err : option error),
    ConnectWithOpts range_of w addrs0 opts0 = Done (w', r, err) /\
    (is_Some r <->
     exists (j : nat) (a : string),
       addrs0 !! j = Some a /\ dialer w (now w + j) a = DialConn true) /\
    (is_Some r -> err = None) /\
    (r = None -> err = Some ErrNoConnection).
Proof.
  intros Hne Hct.
  rewrite (ConnectWithOpts_warm range_of w addrs0 opts0 Hne Hct). cbv zeta.
  set (cm0 := mkConnectionMulti _ _ _ _ _ _ _).
  pose proof (warmUp_loop_alive addrs0 0 w cm0 false
                (replicate (length addrs0) None)) as Hal.
  pose proof (warmUp_loop_control addrs0 0 w cm0 false
                (replicate (length addrs0) None)) as Hctl.
  destruct (warmUp_loop _ _ _ _ _ _) as [[[w1 cm1] alive] errs].
  cbn [fst snd] in *.
  destruct alive.
  - exists w1, (Some (set_checking cm1)), None.
    split; [reflexivity|]. split; [|split; [reflexivity | discriminate]].
    split; [intros _ | intros _; eauto].
    destruct (proj1 Hal eq_refl) as [Habs | Hex]; [discriminate | exact Hex].
  - destruct (Close_returns range_of w1 cm1 Hctl) as (w2 & e & ->).
    cbn [obind fst]. exists w2, None, (Some ErrNoConnection).
    split; [reflexivity|]. split; [|split; [|reflexivity]].
    + split; [intros [? Habs]; discriminate|].
      intros Hex. assert (false = true) by (apply Hal; now right).
      discriminate.
    + intros [? Habs]. discriminate.
Qed.

Lemma ConnectWithOpts_succeeds_iff_witness :
  exists (w' : World) (r : option ConnectionMulti) (err : option error),
    ConnectWithOpts map_to_list only_b ["a:3301"; "b:3301"] one_second =
      Done (w', r, err) /\
    (is_Some r <->
     exists (j : nat) (a : string),
       ["a:3301"; "b:3301"] !! j = Some a /\
       dialer only_b (now only_b + j) a = DialConn true) /\
    (is_Some r -> err = None) /\
    (r = None -> err = Some ErrNoConnection).
Proof.
  apply (ConnectWithOpts_succeeds_iff map_to_list only_b
           ["a:3301"; "b:3301"] one_second).
  - discriminate.
  - reflexivity.
Defined.

(** X9: when the addresses given are pairwise different and the
    constructor returns a pool, the selection made right afterwards
    returns a tracked connection that is connected now, and the pool
    reports connected-now. *)
Theorem ConnectWithOpts_then_connected
  (range_of : gmap string ptr -> list (string * ptr))
  (w w' : World) (addrs0 : list string) (opts0 : OptsMulti)
  (cm : ConnectionMulti) (err : option error) :
  ConnectWithOpts range_of w addrs0 opts0 = Done (w', Some cm, err) ->
  NoDup addrs0 ->
  exists c : nat,
    snd (getCurrentConnection w' cm) = Some c /\
    ConnectedNow w' c = true /\ tracked cm c /\
    ConnectionMulti_ConnectedNow w' cm =
      Done (fst (getCurrentConnection w' cm), true).
Proof.
  intros H Hnd.
  destruct (ConnectWithOpts_pool_inv _ _ _ _ _ _ _ H)
    as (Hne & Hct & cm1 & -> & -> & Hloop).
  set (cm0 := mkConnectionMulti _ _ _ _ _ _ _) in Hloop.
  pose proof (warmUp_loop_shape addrs0 addrs0 0 w cm0 false
                (replicate (length addrs0) None)) as S.
  pose proof (warmUp_loop_alive_entry addrs0 0 w cm0 false
                (replicate (length addrs0) None) Hnd) as E.
  rewrite Hloop in S, E. cbn [fst snd] in S, E.
  destruct S as (_ & Hk & (Ha & _ & Hs & _) & _).
  { intros a p Hp. cbn in Hp. now rewrite lookup_empty in Hp. }
  { intros a [p Hp]. cbn in Hp. now rewrite lookup_empty in Hp. }
  { auto. }
  destruct E as (a & c0 & Hp & Hc); [discriminate | reflexivity |].
  assert (Hin : a ∈ addrs (set_checking cm1)).
  { cbn [set_checking addrs]. rewrite Ha. apply Hk. now exists c0. }
  destruct (selection_connected w' (set_checking cm1) a c0 Hin Hp Hc)
    as (c & Hsel & Hcn & Htr).
  exists c. repeat split; try assumption.
  unfold ConnectionMulti_ConnectedNow, getState.
  cbn [set_checking state]. rewrite Hs. cbn [cm0 state].
  rewrite Z.eqb_refl.
  destruct (getCurrentConnection w' (set_checking cm1)) as [cm2 cur].
  cbn [fst snd] in *. subst cur. cbn [deref obind]. now rewrite Hcn.
Qed.

Lemma ConnectWithOpts_then_connected_witness :
  exists c : nat,
    snd (getCurrentConnection built_world built_pool) = Some c /\
    ConnectedNow built_world c = true /\ tracked built_pool c /\
    ConnectionMulti_ConnectedNow built_world built_pool =
      Done (fst (getCurrentConnection built_world built_pool), true).
Proof.
  apply (ConnectWithOpts_then_connected map_to_list only_b built_world
           ["a:3301"; "b:3301"] one_second built_pool None built_on_only_b).
  apply NoDup_cons. split.
  - intros H. apply list_elem_of_singleton in H. discriminate.
  - apply NoDup_singleton.
Defined.

(* --------------------------------------------------------------------- *)
(** ** What the selection can return *)

Lemma currentLoop_result (w : World) (m : gmap string nat) (l : list string) :
  forall fb : option nat,
    (snd (currentLoop w m l fb) = None <->
     fb = None /\ omap (fun a => m !! a) l = []) /\
    (forall c : nat,
       snd (currentLoop w m l fb) = Some c ->
       c ∈ omap (fun a => m !! a) l \/ fb = Some c) /\
    (fb <> None -> fst (currentLoop w m l fb) <> None).
Proof.
  induction l as [|a l IH]; intros fb.
  { cbn. split; [|split].
    - split; [intros H; now split | intros [H _]; exact H].
    - intros c H. now right.
    - tauto. }
  cbn [currentLoop omap list_omap].
  destruct (m !! a) as [conn|] eqn:Ha; [|apply IH].
  destruct (ConnectedNow w conn).
  - cbn [fst snd]. split; [|split].
    + split; [discriminate | intros [_ H]; discriminate].
    + intros c H. injection H as <-. left. now left.
    + tauto.
  - destruct (IH (Some conn)) as (H1 & H2 & H3). split; [|split].
    + split; [|intros [_ H]; discriminate].
      intros H. apply H1 in H as [H _]. discriminate.
    + intros c H. left. destruct (H2 c H) as [Hin | Heq].
      * now right.
      * injection Heq as <-. now left.
    + intros _. now apply H3.
Qed.

(** X10: the selection returns nil only for a pool whose fallback is nil
    and whose tracked addresses have no entry at all; what it returns is
    an entry of a tracked address or the fallback it found; and it never
    replaces a fallback by nil. *)
Theorem getCurrentConnection_nil_iff (w : World) (cm : ConnectionMulti) :
  (snd (getCurrentConnection w cm) = None <->
   fallback cm = None /\ entries cm = []) /\
  (forall c : nat,
     snd (getCurrentConnection w cm) = Some c ->
     tracked cm c \/ fallback cm = Some c) /\
  (fallback cm <> None -> fallback (fst (getCurrentConnection w cm)) <> None).
Proof.
  unfold getCurrentConnection, entries.
  destruct (currentLoop_result w (pool cm) (addrs cm) (fallback cm))
    as (H1 & H2 & H3).
  destruct (currentLoop w (pool cm) (addrs cm) (fallback cm)) as [fb cur].
  cbn [fst snd set_fallback fallback] in *.
  split; [exact H1|]. split; [|exact H3].
  intros c Hc. destruct (H2 c Hc) as [Hin | Hfb]; [left | now right].
  apply list_elem_of_omap in Hin as (a & _ & Ha). now exists a.
Qed.

(* --------------------------------------------------------------------- *)
(** ** Do with a request that is not bound *)

(** X11: a request that is bound to no connection goes out on the
    selected connection: one call on it and nothing else; the selected
    connection is the first connected entry when there is one, and an entry
    or the fallback in any case.  Only a pool without fallback and without
    any entry makes [Do] panic, on the nil pointer. *)
Theorem Do_unbound (w : World) (cm : ConnectionMulti) (req : Request) :
  reqConn req = None ->
  (fallback cm = None /\ entries cm = [] /\
   Do w cm req = Panic nil_dereference) \/
  (exists (c : nat) (cm' : ConnectionMulti),
     Do w cm req = Done (record (EvDo c req) w, cm', FutSent (EvDo c req)) /\
     (tracked cm c \/ fallback cm = Some c) /\
     (forall c' : nat, first_connected w cm = Some c' -> c' = c) /\
     pool cm' = pool cm /\ addrs cm' = addrs cm).
Proof.
  intros Hreq. unfold Do. rewrite Hreq.
  destruct (currentLoop_result w (pool cm) (addrs cm) (fallback cm))
    as (Hnil & Hsome & _).
  pose proof (currentLoop_selects w (pool cm) (addrs cm) (fallback cm)) as Hsel.
  unfold first_connected, entries, getCurrentConnection.
  destruct (currentLoop w (pool cm) (addrs cm) (fallback cm)) as [fb cur].
  cbn [fst snd] in *.
  destruct cur as [c|].
  - right. exists c, (set_fallback fb cm). cbn [deref obind Connection_Do].
    split; [reflexivity|]. split; [|split; [|split; reflexivity]].
    + destruct (Hsome c eq_refl) as [Hin | Hfb]; [left | now right].
      apply list_elem_of_omap in Hin as (a & _ & Ha). now exists a.
    + intros c' Hc'. rewrite Hc' in Hsel. congruence.
  - left. destruct (proj1 Hnil eq_refl) as [H1 H2]. auto.
Qed.

Lemma Do_unbound_witness :
  (fallback pool_ab = None /\ entries pool_ab = [] /\
   Do (cluster []) pool_ab (mkRequest 1 None) = Panic nil_dereference) \/
  (exists (c : nat) (cm' : ConnectionMulti),
     Do (cluster []) pool_ab (mkRequest 1 None) =
       Done (record (EvDo c (mkRequest 1 None)) (cluster []), cm',
             FutSent (EvDo c (mkRequest 1 None))) /\
     (tracked pool_ab c \/ fallback pool_ab = Some c) /\
     (forall c' : nat, first_connected (cluster []) pool_ab = Some c' -> c' = c) /\
     pool cm' = pool pool_ab /\ addrs cm' = addrs pool_ab).
Proof.
  apply (Do_unbound (cluster []) pool_ab (mkRequest 1 None)). reflexivity.
Defined.

(* --------------------------------------------------------------------- *)
(** ** A closed pool *)

Lemma timerLoop_closed (l : list string) (w : World) (cm : ConnectionMulti) :
  getState cm = connClosed ->
  exists next : Next, timerLoop l w cm = (w, cm, next).
Proof.
  intros H. destruct l as [|a l]; cbn [timerLoop]; [now exists Continue|].
  rewrite H. cbn. now exists Return.
Qed.

(** X12: after [Close] has returned, the checker does no work whichever
    source wakes it: no dial, no call, no close, no change of the pool;
    the loop ends at its next test; a checker started on the closed pool
    panics in [time.NewTicker] when one of the two intervals is not
    positive and returns at once otherwise; and the pool reports not
    connected without selecting a connection. *)
Theorem closed_pool_is_left_alone
  (range_of : gmap string ptr -> list (string * ptr))
  (w0 w1 : World) (cm0 cm1 : ConnectionMulti) (e : option error) :
  Close range_of w0 cm0 = Done (w1, cm1, e) ->
  (forall (wk : Wakeup) (w : World),
     exists next : Next, checker_select wk w cm1 = Done (w, cm1, next)) /\
  (forall (wakeups : list Wakeup) (w : World),
     checker_loop wakeups w cm1 = Done (w, cm1)) /\
  (forall (wakeups : list Wakeup) (w : World),
     checker wakeups w cm1 =
     if (ClusterDiscoveryTime (opts cm0) <=? 0) ||
        (CheckTimeout (opts cm0) <=? 0)
     then Panic non_positive_interval
     else Done (w, cm1)) /\
  (forall w : World, ConnectionMulti_ConnectedNow w cm1 = Done (cm1, false)).
Proof.
  intros H.
  assert (Hst : getState cm1 = connClosed /\ opts cm1 = opts cm0).
  { unfold Close in H. destruct (control cm0); [discriminate|].
    destruct (closeEach _ _ _) as [w' err]. injection H as _ <- _.
    split; reflexivity. }
  destruct Hst as [Hst Hopts].
  assert (Hloop : forall (wakeups : list Wakeup) (w : World),
             checker_loop wakeups w cm1 = Done (w, cm1)).
  { intros wakeups w. destruct wakeups; cbn [checker_loop]; [reflexivity|].
    now rewrite Hst. }
  split; [|split; [exact Hloop|split]].
  - intros wk w. destruct wk as [|c| |]; cbn [checker_select].
    + now exists Return.
    + exists Return. unfold onNotify. now rewrite Hst.
    + exists Continue. unfold onRefresh. now rewrite Hst.
    + unfold onTimer. destruct (timerLoop_closed (addrs cm1) w cm1 Hst) as [n ->].
      now exists n.
  - intros wakeups w. unfold checker, NewTicker. rewrite Hopts.
    destruct (ClusterDiscoveryTime (opts cm0) <=? 0); [reflexivity|].
    destruct (CheckTimeout (opts cm0) <=? 0); [reflexivity|].
    cbn [obind orb]. apply Hloop.
  - intros w. unfold ConnectionMulti_ConnectedNow. now rewrite Hst.
Qed.

(** The pool that [ConnectWithOpts] builds on [only_b], closed. *)
Lemma closed_pool_is_left_alone_witness :
  (forall (wk : Wakeup) (w : World),
     exists next : Next,
       checker_select wk w (set_closed built_pool) =
       Done (w, set_closed built_pool, next)) /\
  (forall (wakeups : list Wakeup) (w : World),
     checker_loop wakeups w (set_closed built_pool) =
     Done (w, set_closed built_pool)) /\
  (forall (wakeups : list Wakeup) (w : World),
     checker wakeups w (set_closed built_pool) =
     if (ClusterDiscoveryTime (opts built_pool) <=? 0) ||
        (CheckTimeout (opts built_pool) <=? 0)
     then Panic non_positive_interval
     else Done (w, set_closed built_pool)) /\
  (forall w : World,
     ConnectionMulti_ConnectedNow w (set_closed built_pool) =
     Done (set_closed built_pool, false)).
Proof.
  apply (closed_pool_is_left_alone map_to_list built_world
           (fst (Connection_Close (fst (Connection_Close built_world 0%nat))
                                  0%nat))
           built_pool (set_closed built_pool) None).
  vm_compute. reflexivity.
Defined.

(* --------------------------------------------------------------------- *)
(** ** The checker on a notification *)

(** X13: in an open pool a notification about a connection that is not
    closed, or whose address has no entry, changes nothing.  For a closed
    connection whose address has an entry the address is dialled once:
    when the dial gives a connection it becomes the entry, when it gives
    none the entry is removed.  No other entry, no connection there was
    and neither the tracked list nor the fallback is touched, and the loop
    goes on. *)
Theorem onNotify_repairs (w : World) (cm : ConnectionMulti) (c : ptr) :
  getState cm <> connClosed ->
  let a := Connection_Addr w c in
  let w' := fst (fst (onNotify c w cm)) in
  let cm' := snd (fst (onNotify c w cm)) in
  snd (onNotify c w cm) = Continue /\
  addrs cm' = addrs cm /\ fallback cm' = fallback cm /\
  (forall a' : string, a' <> a -> pool cm' !! a' = pool cm !! a') /\
  (forall p : nat, (p < length (heap w))%nat -> heap w' !! p = heap w !! p) /\
  (ClosedNow w c = false \/ pool cm !! a = None -> w' = w /\ cm' = cm) /\
  (ClosedNow w c = true -> is_Some (pool cm !! a) ->
   trace w' = (trace w ++ [EvDial a])%list /\
   (((exists e : error, dialer w (now w) a = DialError e) /\
     pool cm' !! a = None /\ heap w' = heap w) \/
    ((exists live : bool, dialer w (now w) a = DialConn live) /\
     opened w w' cm' a))).
Proof.
  intros Hst a. unfold onNotify.
  rewrite (proj2 (Z.eqb_neq _ _) Hst).
  destruct (ClosedNow w c) eqn:Hc.
  2:{ cbn [fst snd]. repeat match goal with |- _ /\ _ => split end; auto.
      intros H. discriminate. }
  fold a. unfold getConnectionFromPool.
  destruct (pool cm !! a) as [p0|] eqn:Hp.
  2:{ cbn [fst snd]. repeat match goal with |- _ /\ _ => split end; auto.
      intros _ [? H]. discriminate. }
  destruct (Connect_answers w a) as [(e & Hans & ->) | (live & Hans & ->)];
    cbn [fst snd deleteConnectionFromPool setConnectionToPool set_pool
         addrs fallback pool].
  - repeat match goal with |- _ /\ _ => split end; auto.
    + intros a' Hne. now apply lookup_delete_ne.
    + intros [H | H]; discriminate.
    + intros _ _. split; [reflexivity|]. left.
      split; [now exists e|]. split; [apply lookup_delete_eq | reflexivity].
  - repeat match goal with |- _ /\ _ => split end; auto.
    + intros a' Hne. now apply lookup_insert_ne.
    + intros p Hlt. cbn [heap record allocate]. now apply lookup_app_l.
    + intros [H | H]; discriminate.
    + intros _ _. split; [reflexivity|]. right.
      split; [now exists live|].
      exists (length (heap w)), (if live then Connected else Connecting).
      cbn [pool heap record allocate].
      split; [apply lookup_insert_eq|]. split; [lia|].
      split; [|now destruct live].
      rewrite lookup_app_r by lia. now rewrite Nat.sub_diag.
Qed.

Lemma onNotify_repairs_witness :
  snd (onNotify 0%nat cluster_a_closed pool_ab) = Continue /\
  pool (snd (fst (onNotify 0%nat cluster_a_closed pool_ab))) !! "a:3301" =
    Some 2%nat /\
  pool (snd (fst (onNotify 0%nat cluster_a_closed pool_ab))) !! "b:3301" =
    Some 1%nat.
Proof.
  assert (Hst : getState pool_ab <> connClosed) by (vm_compute; discriminate).
  pose proof (onNotify_repairs cluster_a_closed pool_ab 0%nat Hst) as H.
  cbv zeta in H. destruct H as (H1 & _).
  split; [exact H1|]. split; vm_compute; reflexivity.
Defined.

(* --------------------------------------------------------------------- *)
(** ** The checker on the health-check timer *)

Lemma ClosedNow_grow (w : World) (a : string) (live : bool) (ev : Event)
  (p : nat) :
  ClosedNow
    (record ev
       (allocate (mkConnection a (if live then Connected else Connecting)) w)) p
  = ClosedNow w p.
Proof.
  unfold ClosedNow. cbn [heap record allocate].
  destruct (decide (p < length (heap w))%nat) as [Hlt | Hge].
  - now rewrite lookup_app_l.
  - rewrite (proj2 (lookup_ge_None (heap w) p)) by lia.
    destruct (decide (p = length (heap w))) as [-> | Hne].
    + rewrite lookup_app_r by lia. rewrite Nat.sub_diag. cbn. now destruct live.
    + rewrite (proj2 (lookup_ge_None _ p)); [reflexivity|].
      rewrite length_app. cbn. lia.
Qed.

Lemma timerLoop_spec (l : list string) :
  forall (w : World) (cm : ConnectionMulti),
    getState cm <> connClosed ->
    let w' := fst (fst (timerLoop l w cm)) in
    let cm' := snd (fst (timerLoop l w cm)) in
    snd (timerLoop l w cm) = Continue /\
    (addrs cm' = addrs cm /\ fallback cm' = fallback cm /\
     state cm' = state cm /\ control cm' = control cm /\ opts cm' = opts cm) /\
    (length (heap w) <= length (heap w'))%nat /\
    (forall p : nat, (p < length (heap w))%nat -> heap w' !! p = heap w !! p) /\
    (forall a : string, live_entry w cm a = true \/ a ∉ l ->
                        pool cm' !! a = pool cm !! a) /\
    (forall a : string, pool cm' !! a = pool cm !! a \/ opened w w' cm' a) /\
    (exists ds : list string,
       trace w' = (trace w ++ map EvDial ds)%list /\
       forall d : string, d ∈ ds -> (d ∈ l) /\ live_entry w cm d = false) /\
    ((forall a : string, a ∈ l -> live_entry w cm a = true) ->
     w' = w /\ cm' = cm).
Proof.
  induction l as [|a l IH]; intros w cm Hst.
  { cbn. repeat match goal with |- _ /\ _ => split end; auto.
    exists []. cbn. rewrite app_nil_r. split; [reflexivity|].
    intros d Hd. now apply elem_of_nil in Hd. }
  cbn [timerLoop]. rewrite (proj2 (Z.eqb_neq _ _) Hst).
  assert (Hlive : match getConnectionFromPool cm a with
                  | (Some conn, true) => negb (ClosedNow w conn)
                  | _ => false
                  end = live_entry w cm a).
  { unfold getConnectionFromPool, live_entry. now destruct (pool cm !! a). }
  rewrite Hlive. destruct (live_entry w cm a) eqn:Hla.
  - (* the entry is live: next address *)
    destruct (IH w cm Hst)
      as (H1 & H2 & H3 & H4 & H5 & H6 & (ds & H7 & H8) & H9).
    repeat match goal with |- _ /\ _ => split end; try assumption;
      try apply H2.
    + intros a' [Ha' | Ha']; apply H5; [now left | right].
      intros Hin. apply Ha'. now right.
    + exists ds. split; [exact H7|]. intros d Hd.
      destruct (H8 d Hd). split; [now right | assumption].
    + intros Hall. apply H9. intros a' Ha'. apply Hall. now right.
  - destruct (Connect_answers w a) as [(e & Hans & ->) | (live & Hans & ->)].
    + (* the dial gives nothing *)
      destruct (IH (record (EvDial a) w) cm Hst)
        as (H1 & H2 & H3 & H4 & H5 & H6 & (ds & H7 & H8) & H9).
      repeat match goal with |- _ /\ _ => split end; try assumption;
        try apply H2.
      * intros a' [Ha' | Ha']; apply H5; [now left | right].
        intros Hin. apply Ha'. now right.
      * exists (a :: ds). split.
        -- rewrite H7. cbn [trace record map]. now rewrite <- app_assoc.
        -- intros d Hd. apply elem_of_cons in Hd as [-> | Hd].
           ++ split; [now left | exact Hla].
           ++ destruct (H8 d Hd). split; [now right | assumption].
      * intros Hall. rewrite Hall in Hla by now left. discriminate.
    + (* the dial gives a connection *)
      set (c := length (heap w)).
      set (w1 := record (EvDial a)
                   (allocate (mkConnection a
                      (if live then Connected else Connecting)) w)).
      set (cm1 := setConnectionToPool a c cm).
      assert (Hlen1 : length (heap w1) = S (length (heap w))).
      { unfold w1. cbn [heap record allocate]. rewrite length_app. cbn. lia. }
      assert (Hle1 : forall a' : string,
                 a' <> a -> live_entry w1 cm1 a' = live_entry w cm a').
      { intros a' Hne. unfold live_entry, cm1, setConnectionToPool.
        cbn [pool set_pool]. rewrite lookup_insert_ne by congruence.
        destruct (pool cm !! a'); [|reflexivity].
        unfold w1. now rewrite ClosedNow_grow. }
      destruct (IH w1 cm1 Hst)
        as (H1 & H2 & H3 & H4 & H5 & H6 & (ds & H7 & H8) & H9).
      assert (Hc : heap (fst (fst (timerLoop l w1 cm1))) !! c =
                   Some (mkConnection a (if live then Connected else Connecting))).
      { rewrite H4 by (unfold c; lia). unfold w1, c. cbn [heap record allocate].
        rewrite lookup_app_r by lia. now rewrite Nat.sub_diag. }
      repeat match goal with |- _ /\ _ => split end;
        try assumption; try apply H2.
      * lia.
      * intros p Hp. rewrite H4 by lia. unfold w1. cbn [heap record allocate].
        now apply lookup_app_l.
      * intros a' Ha'.
        assert (Hne : a' <> a).
        { intros ->. destruct Ha' as [Ha' | Ha']; [congruence|].
          apply Ha'. now left. }
        rewrite H5.
        -- unfold cm1, setConnectionToPool. cbn [pool set_pool].
           apply lookup_insert_ne. congruence.
        -- destruct Ha' as [Ha' | Ha']; [left | right].
           ++ now rewrite Hle1.
           ++ intros Hin. apply Ha'. now right.
      * intros a'. destruct (H6 a') as [Hsame | Hop].
        -- destruct (decide (a' = a)) as [-> | Hne].
           ++ right. exists c, (if live then Connected else Connecting).
              split; [rewrite Hsame; unfold cm1, setConnectionToPool;
                      cbn [pool set_pool]; apply lookup_insert_eq|].
              split; [unfold c; lia|]. split; [exact Hc | now destruct live].
           ++ left. rewrite Hsame. unfold cm1, setConnectionToPool.
              cbn [pool set_pool]. apply lookup_insert_ne. congruence.
        -- right. apply (opened_earlier w w1); [lia | exact Hop].
      * exists (a :: ds). split.
        -- rewrite H7. unfold w1. cbn [trace record allocate map].
           now rewrite <- app_assoc.
        -- intros d Hd. apply elem_of_cons in Hd as [-> | Hd].
           ++ split; [now left | exact Hla].
           ++ destruct (H8 d Hd) as [Hin Hl]. split; [now right|].
              destruct (decide (d = a)) as [-> | Hne]; [exact Hla|].
              now rewrite <- Hle1.
      * intros Hall. rewrite Hall in Hla by now left. discriminate.
Qed.

(** The dials of the health check, one by one. *)
Lemma timerLoop_dials (l : list string) :
  forall (w : World) (cm : ConnectionMulti),
    getState cm <> connClosed ->
    let w' := fst (fst (timerLoop l w cm)) in
    let cm' := snd (fst (timerLoop l w cm)) in
    exists ds : list string,
      trace w' = (trace w ++ map EvDial ds)%list /\
      (forall d : string,
         d ∈ ds <-> (d ∈ l) /\ live_entry w cm d = false) /\
      (forall a : string, dialled w w' cm cm' (now w) ds a).
Proof.
  induction l as [|a l IH]; intros w cm Hst.
  { exists []. cbn. rewrite app_nil_r. split; [reflexivity|]. split.
    - intros d. split.
      + intros Hd. now apply elem_of_nil in Hd.
      + intros [Hd _]. now apply elem_of_nil in Hd.
    - intros a. left. split; [|reflexivity]. intros k Hk. discriminate. }
  cbn [timerLoop]. rewrite (proj2 (Z.eqb_neq _ _) Hst).
  assert (Hlive : match getConnectionFromPool cm a with
                  | (Some conn, true) => negb (ClosedNow w conn)
                  | _ => false
                  end = live_entry w cm a).
  { unfold getConnectionFromPool, live_entry. now destruct (pool cm !! a). }
  rewrite Hlive. destruct (live_entry w cm a) eqn:Hla.
  - (* the entry is live: next address *)
    destruct (IH w cm Hst) as (ds & H7 & H8 & H9).
    exists ds. split; [exact H7|]. split; [|exact H9].
    intros d. rewrite H8. split.
    + intros [Hd Hl]. split; [now right | exact Hl].
    + intros [Hd Hl]. split; [|exact Hl].
      apply elem_of_cons in Hd as [-> | Hd]; [congruence | exact Hd].
  - destruct (Connect_answers w a) as [(e & Hans & ->) | (live & Hans & ->)].
    + (* the dial gives nothing *)
      destruct (IH (record (EvDial a) w) cm Hst) as (ds & H7 & H8 & H9).
      exists (a :: ds). split; [|split].
      * rewrite H7. cbn [trace record map]. now rewrite <- app_assoc.
      * intros d. rewrite elem_of_cons, H8.
        change (live_entry (record (EvDial a) w) cm d)
          with (live_entry w cm d).
        split.
        -- intros [-> | [Hd Hl]]; (split; [|assumption]);
             [now left | now right].
        -- intros [Hd Hl]. apply elem_of_cons in Hd as [-> | Hd];
             [now left | right; now split].
      * intros a'. specialize (H9 a'). rewrite now_record in H9.
        now apply (dialled_after_failure w (record (EvDial a) w)) with (e := e).
    + (* the dial gives a connection *)
      set (st := if live then Connected else Connecting).
      set (w1 := record (EvDial a) (allocate (mkConnection a st) w)).
      set (cm1 := setConnectionToPool a (length (heap w)) cm).
      assert (Hlen1 : length (heap w1) = S (length (heap w))).
      { unfold w1. cbn [heap record allocate]. rewrite length_app. cbn. lia. }
      assert (Hle1 : forall a' : string,
                 a' <> a -> live_entry w1 cm1 a' = live_entry w cm a').
      { intros a' Hne. unfold live_entry, cm1, setConnectionToPool.
        cbn [pool set_pool]. rewrite lookup_insert_ne by congruence.
        destruct (pool cm !! a'); [|reflexivity].
        unfold w1, st. now rewrite ClosedNow_grow. }
      destruct (timerLoop_spec l w1 cm1 Hst) as (_ & _ & _ & H4 & _).
      destruct (IH w1 cm1 Hst) as (ds & H7 & H8 & H9).
      exists (a :: ds). split; [|split].
      * rewrite H7. unfold w1. cbn [trace record allocate map].
        now rewrite <- app_assoc.
      * intros d. rewrite elem_of_cons, H8. split.
        -- intros [-> | [Hd Hl]]; [split; [now left | exact Hla]|].
           split; [now right|].
           destruct (decide (d = a)) as [-> | Hne]; [exact Hla|].
           now rewrite <- Hle1.
        -- intros [Hd Hl].
           destruct (decide (d = a)) as [-> | Hne]; [now left|]. right.
           apply elem_of_cons in Hd as [-> | Hd]; [congruence|].
           split; [exact Hd|]. now rewrite Hle1.
      * assert (Hnow : now w1 = S (now w))
          by (unfold w1; rewrite now_record; reflexivity).
        intros a'. specialize (H9 a'). rewrite Hnow in H9.
        apply (dialled_after_success w w1) with (live := live);
          try assumption; try reflexivity; [lia|].
        rewrite H4 by lia. unfold w1. cbn [heap record allocate].
        rewrite lookup_app_r by lia. now rewrite Nat.sub_diag.
Qed.

(** X14: a health-check tick in an open pool goes through the tracked
    addresses and dials exactly those whose entry is missing or closed,
    one after the other.  An entry that is not closed is kept as it is
    and its address is not dialled; an address that is dialled gets as its
    entry the connection that the dial returns, a connection to that
    address put on the heap in this tick in the state the dial answered,
    and keeps the entry it had when every dial of it fails.  No connection
    is closed, the tracked list and the fallback stay, and when every
    tracked address has an entry that is not closed the tick changes
    nothing at all. *)
Theorem onTimer_heals (w : World) (cm : ConnectionMulti) :
  getState cm <> connClosed ->
  let w' := fst (fst (onTimer w cm)) in
  let cm' := snd (fst (onTimer w cm)) in
  snd (onTimer w cm) = Continue /\
  addrs cm' = addrs cm /\ fallback cm' = fallback cm /\
  (forall p : nat, (p < length (heap w))%nat -> heap w' !! p = heap w !! p) /\
  (forall a : string, live_entry w cm a = true \/ a ∉ addrs cm ->
                      pool cm' !! a = pool cm !! a) /\
  (exists ds : list string,
     trace w' = (trace w ++ map EvDial ds)%list /\
     (forall d : string,
        d ∈ ds <-> (d ∈ addrs cm) /\ live_entry w cm d = false) /\
     (forall a : string, dialled w w' cm cm' (now w) ds a)) /\
  ((forall a : string, a ∈ addrs cm -> live_entry w cm a = true) ->
   w' = w /\ cm' = cm).
Proof.
  intros Hst. unfold onTimer.
  destruct (timerLoop_spec (addrs cm) w cm Hst)
    as (H1 & (H2a & H2b & _) & _ & H4 & H5 & _ & _ & H8).
  pose proof (timerLoop_dials (addrs cm) w cm Hst) as H7.
  repeat match goal with |- _ /\ _ => split end; assumption.
Qed.

(** The cluster after connection 0 was closed from outside: the tick
    dials a and files the connection it gets, the third on the heap. *)
Lemma onTimer_heals_witness :
  snd (onTimer cluster_a_closed discovering_pool) = Continue /\
  trace (fst (fst (onTimer cluster_a_closed discovering_pool))) =
    [EvDial "a:3301"] /\
  pool (snd (fst (onTimer cluster_a_closed discovering_pool))) !! "a:3301" =
    Some 2%nat /\
  heap (fst (fst (onTimer cluster_a_closed discovering_pool))) !! 2%nat =
    Some (mkConnection "a:3301" Connected).
Proof.
  assert (Hst : getState discovering_pool <> connClosed)
    by (vm_compute; discriminate).
  pose proof (onTimer_heals cluster_a_closed discovering_pool Hst) as H.
  cbv zeta in H. destruct H as (H1 & _).
  split; [exact H1|]. repeat split; vm_compute; reflexivity.
Defined.

(* --------------------------------------------------------------------- *)
(** ** The checker keeps the invariant of the pool map *)

Lemma getCurrentConnection_frame (w : World) (cm : ConnectionMulti) :
  state (fst (getCurrentConnection w cm)) = state cm /\
  control (fst (getCurrentConnection w cm)) = control cm /\
  opts (fst (getCurrentConnection w cm)) = opts cm /\
  checking (fst (getCurrentConnection w cm)) = checking cm.
Proof.
  unfold getCurrentConnection.
  destruct (currentLoop w (pool cm) (addrs cm) (fallback cm)).
  repeat split; reflexivity.
Qed.

Lemma filed_Connect (w : World) (a : string) (m : gmap string nat) :
  filed (heap w) m ->
  filed (heap (fst (fst (Tarantool.Connect w a)))) m /\
  forall c : nat,
    snd (fst (Tarantool.Connect w a)) = Some c ->
    filed (heap (fst (fst (Tarantool.Connect w a)))) (<[a := c]> m).
Proof.
  intros H.
  destruct (Connect_answers w a) as [(e & _ & ->) | (live & _ & ->)];
    cbn [fst snd heap record allocate].
  - split; [exact H | discriminate].
  - split; [now apply filed_grow|]. intros c Hc. injection Hc as <-.
    now apply filed_insert.
Qed.

Lemma onNotify_inv (c : ptr) (w : World) (cm : ConnectionMulti) :
  filed (heap w) (pool cm) ->
  (forall a : string, is_Some (pool cm !! a) -> a ∈ addrs cm) ->
  let w' := fst (fst (onNotify c w cm)) in
  let cm' := snd (fst (onNotify c w cm)) in
  filed (heap w') (pool cm') /\
  (forall a : string, is_Some (pool cm' !! a) -> a ∈ addrs cm') /\
  state cm' = state cm /\ control cm' = control cm /\ opts cm' = opts cm.
Proof.
  intros Hf Hk. unfold onNotify.
  destruct (getState cm =? connClosed); [cbn; auto|].
  destruct (ClosedNow w c); [|cbn; auto].
  set (a := Connection_Addr w c). unfold getConnectionFromPool.
  destruct (pool cm !! a) as [p0|] eqn:Hp; [|cbn; auto].
  destruct (filed_Connect w a (pool cm) Hf) as [F1 F2].
  destruct (Tarantool.Connect w a) as [[w1 conn] err]. cbn [fst snd] in *.
  destruct conn as [c'|];
    cbn [fst snd setConnectionToPool deleteConnectionFromPool set_pool pool
         addrs state control opts].
  - split; [now apply F2|]. split; [|auto].
    intros a' [p Ha']. destruct (decide (a = a')) as [<- | Hne].
    + apply Hk. now exists p0.
    + rewrite lookup_insert_ne in Ha' by assumption. apply Hk. now exists p.
  - split; [now apply filed_delete|]. split; [|auto].
    intros a' [p Ha']. apply lookup_delete_Some in Ha' as [_ Ha'].
    apply Hk. now exists p.
Qed.

Lemma timerLoop_inv (l : list string) :
  forall (w : World) (cm : ConnectionMulti),
    filed (heap w) (pool cm) ->
    (forall a : string, is_Some (pool cm !! a) -> a ∈ addrs cm) ->
    (forall a : string, a ∈ l -> a ∈ addrs cm) ->
    let w' := fst (fst (timerLoop l w cm)) in
    let cm' := snd (fst (timerLoop l w cm)) in
    filed (heap w') (pool cm') /\
    (forall a : string, is_Some (pool cm' !! a) -> a ∈ addrs cm') /\
    state cm' = state cm /\ control cm' = control cm /\ opts cm' = opts cm.
Proof.
  induction l as [|a l IH]; intros w cm Hf Hk Hl; [cbn; auto|].
  cbn [timerLoop].
  destruct (getState cm =? connClosed); [cbn; auto|].
  assert (Hl' : forall a' : string, a' ∈ l -> a' ∈ addrs cm)
    by (intros a' Ha'; apply Hl; now right).
  destruct (match getConnectionFromPool cm a with
            | (Some conn, true) => negb (ClosedNow w conn)
            | _ => false
            end); [now apply IH|].
  destruct (filed_Connect w a (pool cm) Hf) as [F1 F2].
  destruct (Tarantool.Connect w a) as [[w1 conn] err]. cbn [fst snd] in *.
  destruct conn as [c|]; [|now apply IH].
  destruct (IH w1 (setConnectionToPool a c cm)) as (H1 & H2 & H3 & H4 & H5).
  - now apply F2.
  - intros a' [p Ha']. cbn [setConnectionToPool set_pool pool addrs] in *.
    destruct (decide (a = a')) as [<- | Hne].
    + apply Hl. now left.
    + rewrite lookup_insert_ne in Ha' by assumption. apply Hk. now exists p.
  - exact Hl'.
  - auto.
Qed.

Lemma fillPool_filed (tracked : list string) (l : list string) :
  forall (w : World) (cm : ConnectionMulti),
    filed (heap w) (pool cm) ->
    let w2 := fst (fillPool tracked l w cm) in
    let cm2 := snd (fillPool tracked l w cm) in
    filed (heap w2) (pool cm2) /\
    state cm2 = state cm /\ control cm2 = control cm /\ opts cm2 = opts cm.
Proof.
  induction l as [|v l IH]; intros w cm Hf; [cbn; auto|].
  cbn [fillPool]. destruct (indexOf v tracked <? 0); [|now apply IH].
  destruct (filed_Connect w v (pool cm) Hf) as [F1 F2].
  destruct (Tarantool.Connect w v) as [[w1 conn] err]. cbn [fst snd] in *.
  destruct conn as [c|]; [|now apply IH].
  destruct (IH w1 (setConnectionToPool v c cm)) as (H1 & H2 & H3 & H4).
  - now apply F2.
  - auto.
Qed.

Lemma clearPool_filed (fresh : list string) (l : list string) :
  forall (w : World) (cm : ConnectionMulti),
    filed (heap w) (pool cm) ->
    let w3 := fst (clearPool fresh l w cm) in
    let cm3 := snd (clearPool fresh l w cm) in
    filed (heap w3) (pool cm3) /\
    state cm3 = state cm /\ control cm3 = control cm /\ opts cm3 = opts cm.
Proof.
  induction l as [|v l IH]; intros w cm Hf; [cbn; auto|].
  cbn [clearPool]. destruct (indexOf v fresh <? 0); [|now apply IH].
  set (w1 := match getConnectionFromPool cm v with
             | (Some con, true) => fst (Connection_Close w con)
             | _ => w
             end).
  assert (Hf1 : filed (heap w1) (pool cm)).
  { unfold w1, getConnectionFromPool. destruct (pool cm !! v); [|exact Hf].
    unfold Connection_Close. cbn [fst heap record mark].
    now apply filed_alter. }
  destruct (IH w1 (deleteConnectionFromPool v cm)) as (H1 & H2 & H3 & H4).
  - cbn [deleteConnectionFromPool set_pool pool]. now apply filed_delete.
  - auto.
Qed.

Lemma onRefresh_inv (w w' : World) (cm cm' : ConnectionMulti) (next : Next) :
  filed (heap w) (pool cm) ->
  (forall a : string, is_Some (pool cm !! a) -> a ∈ addrs cm) ->
  onRefresh w cm = Done (w', cm', next) ->
  filed (heap w') (pool cm') /\
  (forall a : string, is_Some (pool cm' !! a) -> a ∈ addrs cm') /\
  state cm' = state cm /\ control cm' = control cm /\ opts cm' = opts cm.
Proof.
  intros Hf Hk. unfold onRefresh, Call17Typed, Connection_Call17Typed.
  destruct (_ || _).
  { intros H. injection H as <- <- _. auto. }
  destruct (getCurrentConnection_keeps w cm) as (Ha1 & Hp1 & _).
  destruct (getCurrentConnection_frame w cm) as (Hs1 & Hc1 & Ho1 & _).
  destruct (getCurrentConnection w cm) as [cm1 cur]. cbn [fst snd] in *.
  destruct cur as [c|]; cbn [deref obind]; [|discriminate].
  destruct (caller w (now w) c _) as [resp err]. cbn [obind].
  set (w1 := record (EvCall c (NodesGetFunctionName (opts cm))) w).
  assert (Hsame : Done (w1, cm1, Continue) = Done (w', cm', next) ->
                  filed (heap w') (pool cm') /\
                  (forall a : string, is_Some (pool cm' !! a) -> a ∈ addrs cm') /\
                  state cm' = state cm /\ control cm' = control cm /\
                  opts cm' = opts cm).
  { intros H. injection H as <- <- _. cbn [w1 heap record].
    rewrite Hp1, Ha1. auto. }
  destruct err as [e|]; [exact Hsame|].
  destruct resp as [|fresh rest]; [exact Hsame|].
  destruct (0 <? length fresh)%nat; [|exact Hsame].
  assert (Hf1 : filed (heap w1) (pool cm1)) by (now rewrite Hp1).
  pose proof (fillPool_spec (addrs cm1) fresh w1 cm1) as HF.
  pose proof (fillPool_filed (addrs cm1) fresh w1 cm1 Hf1) as HFf.
  destruct (fillPool (addrs cm1) fresh w1 cm1) as [w2 cm2].
  cbn [fst snd] in HF, HFf.
  destruct HF as (F1 & _ & _ & _ & _ & F6 & _).
  destruct HFf as (Hf2 & Hs2 & Hc2 & Ho2).
  pose proof (clearPool_spec fresh (addrs cm2) w2 cm2) as HK.
  pose proof (clearPool_filed fresh (addrs cm2) w2 cm2 Hf2) as HKf.
  destruct (clearPool fresh (addrs cm2) w2 cm2) as [w3 cm3].
  cbn [fst snd] in HK, HKf.
  destruct HK as (_ & _ & K3 & K4 & _).
  destruct HKf as (Hf3 & Hs3 & Hc3 & Ho3).
  intros H. injection H as <- <- _.
  cbn [set_addrs pool addrs state control opts].
  split; [exact Hf3|].
  split; [|split; [congruence | split; congruence]].
  intros a Ha.
  destruct (decide (a ∈ fresh)) as [Hin | Hnin]; [exact Hin|]. exfalso.
  destruct (decide (a ∈ addrs cm2)) as [Hin2 | Hnin2].
  - rewrite K3 in Ha by assumption. now destruct Ha.
  - rewrite K4 in Ha by now left.
    rewrite F6 in Ha by now right.
    rewrite Hp1 in Ha. apply Hk in Ha. rewrite F1, Ha1 in Hnin2. contradiction.
Qed.

(** The loop of the checker keeps the invariant of the pool map. *)
Lemma checker_loop_inv (wakeups : list Wakeup) :
  forall (w w' : World) (cm cm' : ConnectionMulti),
    pool_ok w cm = true ->
    checker_loop wakeups w cm = Done (w', cm') ->
    pool_ok w' cm' = true /\
    state cm' = state cm /\ control cm' = control cm /\ opts cm' = opts cm.
Proof.
  induction wakeups as [|wk rest IH]; intros w w' cm cm' Hok H.
  { cbn in H. injection H as <- <-. auto. }
  cbn [checker_loop] in H.
  destruct (getState cm =? connClosed).
  { injection H as <- <-. auto. }
  apply pool_ok_iff in Hok as [Hf Hk].
  assert (Hstep : forall (w1 : World) (cm1 : ConnectionMulti) (next : Next),
             checker_select wk w cm = Done (w1, cm1, next) ->
             pool_ok w1 cm1 = true /\
             state cm1 = state cm /\ control cm1 = control cm /\
             opts cm1 = opts cm).
  { intros w1 cm1 next Hsel. rewrite pool_ok_iff.
    destruct wk as [|c| |]; cbn [checker_select] in Hsel.
    - injection Hsel as <- <- _. auto.
    - pose proof (onNotify_inv c w cm Hf Hk) as Hn. cbv zeta in Hn.
      injection Hsel as Hsel. rewrite Hsel in Hn. cbn [fst snd] in Hn. tauto.
    - pose proof (onRefresh_inv w w1 cm cm1 next Hf Hk Hsel). tauto.
    - pose proof (timerLoop_inv (addrs cm) w cm Hf Hk ltac:(auto)) as Hn.
      cbv zeta in Hn. unfold onTimer in Hsel.
      injection Hsel as Hsel. rewrite Hsel in Hn. cbn [fst snd] in Hn. tauto. }
  destruct (checker_select wk w cm) as [[[w1 cm1] next]|msg];
    cbn [obind] in H; [|discriminate].
  destruct (Hstep w1 cm1 next eq_refl) as (Hok1 & Hs1 & Hc1 & Ho1).
  destruct next.
  - destruct (IH w1 w' cm1 cm' Hok1 H) as (H1 & H2 & H3 & H4).
    split; [exact H1|]. split; [|split]; congruence.
  - injection H as <- <-. auto.
Qed.

(** X15: the checker keeps the invariant of the pool map.  Whatever
    wake-ups arrive, if every entry is a connection on the heap to the
    address it is filed under and every key is a tracked address before,
    and the checker, its two tickers made, comes to stop or wait, the same
    holds then; both intervals of the pool are positive; and the checker
    changes neither the state of the pool nor its control channel nor
    its options. *)
Theorem checker_keeps_invariant (wakeups : list Wakeup) :
  forall (w w' : World) (cm cm' : ConnectionMulti),
    pool_ok w cm = true ->
    checker wakeups w cm = Done (w', cm') ->
    pool_ok w' cm' = true /\
    0 < ClusterDiscoveryTime (opts cm) /\ 0 < CheckTimeout (opts cm) /\
    state cm' = state cm /\ control cm' = control cm /\ opts cm' = opts cm.
Proof.
  intros w w' cm cm' Hok H. unfold checker, NewTicker in H.
  destruct (Z.leb_spec (ClusterDiscoveryTime (opts cm)) 0); [discriminate|].
  destruct (Z.leb_spec (CheckTimeout (opts cm)) 0); [discriminate|].
  cbn [obind] in H.
  destruct (checker_loop_inv wakeups w w' cm cm' Hok H) as (P1 & P2 & P3 & P4).
  auto 10.
Qed.

(** The pool that [ConnectWithOpts] builds on [only_b], after its one
    connection was closed from outside: the health check dials a in vain
    and replaces the connection to b, and the notification of the closed
    connection replaces it once more. *)
Lemma checker_keeps_invariant_witness :
  pool_ok built_b_closed built_pool = true /\
  checker [OnTimer; OnNotify 0%nat] built_b_closed built_pool =
    Done (built_b_twice, setConnectionToPool "b:3301" 2%nat built_pool) /\
  pool_ok built_b_twice (setConnectionToPool "b:3301" 2%nat built_pool) = true.
Proof.
  assert (Hok : pool_ok built_b_closed built_pool = true)
    by (vm_compute; reflexivity).
  assert (Hrun : checker [OnTimer; OnNotify 0%nat] built_b_closed built_pool =
                 Done (built_b_twice,
                       setConnectionToPool "b:3301" 2%nat built_pool))
    by (vm_compute; reflexivity).
  split; [exact Hok|]. split; [exact Hrun|].
  exact (proj1 (checker_keeps_invariant [OnTimer; OnNotify 0%nat]
                  built_b_closed built_b_twice built_pool
                  (setConnectionToPool "b:3301" 2%nat built_pool) Hok Hrun)).
Defined.

(* --------------------------------------------------------------------- *)
(** ** Connect *)

(** X16: [Connect] never answers [ErrWrongCheckTimeout], and answers
    [ErrEmptyAddrs] exactly for the empty list.  The pool it returns checks
    its connections every second and has no discovery function: a wake-up
    of the discovery timer does nothing in it, whatever has become of
    its pool map. *)
Theorem Connect_defaults
  (range_of : gmap string ptr -> list (string * ptr))
  (w : World) (addrs0 : list string) :
  exists (w' : World) (r : option ConnectionMulti) (err : option error),
    Multi.Connect range_of w addrs0 = Done (w', r, err) /\
    err <> Some ErrWrongCheckTimeout /\
    (err = Some ErrEmptyAddrs <-> addrs0 = []) /\
    forall cm : ConnectionMulti,
      r = Some cm ->
      CheckTimeout (opts cm) = Second /\
      ClusterDiscoveryTime (opts cm) = 60 * Second /\
      forall (w2 : World) (cm2 : ConnectionMulti),
        opts cm2 = opts cm -> onRefresh w2 cm2 = Done (w2, cm2, Continue).
Proof.
  unfold Multi.Connect.
  destruct addrs0 as [|a0 rest].
  { exists w, None, (Some ErrEmptyAddrs). cbn.
    repeat split; try discriminate; auto. }
  set (addrs0 := a0 :: rest).
  assert (Hne : addrs0 <> []) by discriminate.
  rewrite (ConnectWithOpts_warm range_of w addrs0
             (mkOptsMulti (1 * Second) "" 0) Hne eq_refl). cbv zeta.
  set (cm0 := mkConnectionMulti _ _ _ _ _ _ _).
  pose proof (warmUp_loop_shape addrs0 addrs0 0 w cm0 false
                (replicate (length addrs0) None)) as S.
  pose proof (warmUp_loop_control addrs0 0 w cm0 false
                (replicate (length addrs0) None)) as Hctl.
  destruct (warmUp_loop _ _ _ _ _ _) as [[[w1 cm1] alive] errs].
  cbn [fst snd] in *.
  destruct S as (_ & _ & (_ & Ho & _) & _).
  { intros a p Hp. cbn in Hp. now rewrite lookup_empty in Hp. }
  { intros a [p Hp]. cbn in Hp. now rewrite lookup_empty in Hp. }
  { auto. }
  destruct alive.
  - exists w1, (Some (set_checking cm1)), None.
    split; [reflexivity|]. split; [discriminate|].
    split; [split; discriminate|].
    intros cm Hcm. injection Hcm as <-. cbn [set_checking opts].
    rewrite Ho. cbn. split; [reflexivity|]. split; [reflexivity|].
    intros w2 cm2 Hopts. unfold onRefresh. rewrite Hopts. cbn.
    now rewrite orb_true_r.
  - destruct (Close_returns range_of w1 cm1 Hctl) as (w2 & e & ->).
    cbn [obind fst]. exists w2, None, (Some ErrNoConnection).
    split; [reflexivity|]. split; [discriminate|].
    split; [split; discriminate | discriminate].
Qed.
